(** * Atlas: GeoPoint, VisualisationManager and the projection playback engine

  A shallow embedding of parts of the Atlas toolkit, and proofs about them.

  Definitions:
  - [Js]: the few JavaScript notions the code relies on (Numbers as data,
    truthiness, property reads, completions).
  - [Vertex], [GeoPoint]: atlas/model/GeoPoint.
  - [VisualisationManager]: atlas/visualisation/VisualisationManager.
  - [Projection], [MockProjection]: the projection interface, and the mocked
    projection that the DynamicProjection suite builds.
  - [Timer], [DynamicProjection]: the timer service and the playback engine.
  - [Suite]: the fixture of the DynamicProjection suite.

  Properties: [GeoPointSpec], [VisualisationManagerSpec], [EngineSpec] (the
  engine on any projection), [MockSpec] (the mocked projection) and
  [PlaybackSpec] (the engine on the mocked projection). *)

From Stdlib Require Import ZArith NArith Floats.SpecFloat.
From stdpp Require Import gmap strings list fin_maps.

(** ** JavaScript values used by the code *)

Module Js.

(** A JavaScript Number is an IEEE 754 double.  The code below only passes
    Numbers around and tests them for truthiness; no arithmetic is done on
    them, so the standard library's data model of floats is enough. *)
Definition number : Type := spec_float.

Definition zero : number := S754_zero false.

(** [ToBoolean] on a Number: [NaN], [+0] and [-0] are falsy. *)
Definition truthy (x : number) : bool :=
  match x with
  | S754_nan | S754_zero _ => false
  | _ => true
  end.

(** [parseFloat(a)] for [a] a Number or a missing argument ([None] is
    [undefined]).  The argument is first converted to a string: [undefined]
    and [NaN] parse to [NaN], both zeros print as ["0"], and every other
    Number prints as a literal that reads back as itself. *)
Definition parseFloat (a : option number) : number :=
  match a with
  | None => S754_nan
  | Some (S754_zero _) => zero
  | Some x => x
  end.

(** [a || b] on Numbers. *)
Definition or (a b : number) : number := if truthy a then a else b.

(** Numbers that [parseFloat(x) || 0.0] gives back unchanged: everything
    but [NaN] and [-0]. *)
Definition plain (x : number) : bool :=
  match x with
  | S754_nan | S754_zero true => false
  | _ => true
  end.

(** The values that occur in the projection test suite: [undefined],
    Numbers and strings (object keys are strings). *)
Inductive value :=
| Undefined
| Number (n : number)
| String (s : string).

(** An integer literal such as [10], as a double and as a value. *)
Definition double (z : Z) : number := binary_normalize 53 1024 z 0 false.

Definition int (z : Z) : value := Number (double z).

(** Reading property [k] of an object: a missing property is [undefined]. *)
Definition get (o : gmap string value) (k : string) : value :=
  default Undefined (o !! k).

(** [Object.keys(o)].  The order of the keys plays no role in the loops
    below, each of which touches only the property it is visiting. *)
Definition keys {A : Type} (o : gmap string A) : list string :=
  (map_to_list o).*1.

(** The names of the properties that every plain object inherits from
    [Object.prototype]: those of ECMAScript 5 and the legacy ones the
    browsers add.  Read off an object that has no such property of its own,
    each gives a function (for ["__proto__"] the prototype object): a value
    that is not [undefined], is truthy, and has no [render] or [unrender]. *)
Definition inherited (name : string) : bool :=
  bool_decide (name ∈ ["constructor"; "hasOwnProperty"; "isPrototypeOf";
                       "propertyIsEnumerable"; "toLocaleString"; "toString";
                       "valueOf"; "__proto__"; "__defineGetter__";
                       "__defineSetter__"; "__lookupGetter__";
                       "__lookupSetter__"]).

Inductive error :=
| TypeError
| DeveloperError (message : string) (artifact : string).

(** How a call completes: it returns a value or throws. *)
Inductive completion (A : Type) :=
| Return (a : A)
| Throw (e : error).
Arguments Return {A} a.
Arguments Throw {A} e.

End Js.

(** ** atlas/model/Vertex

  Only the shape of a Vertex is used by GeoPoint: three coordinates, and a
  constructor [new Vertex(x, y, z)] called on three Numbers. *)

Module Vertex.

Record t := Vertex { x : Js.number; y : Js.number; z : Js.number }.

End Vertex.

(** ** atlas/model/GeoPoint *)

Module GeoPoint.

Record t := { latitude : Js.number; longitude : Js.number; elevation : Js.number }.

(** [_init(lat, lng, elevation)]: each field is [parseFloat(arg) || 0.0]. *)
Definition _init (lat lng elevation : option Js.number) : t :=
  {| latitude := Js.or (Js.parseFloat lat) Js.zero;
     longitude := Js.or (Js.parseFloat lng) Js.zero;
     elevation := Js.or (Js.parseFloat elevation) Js.zero |}.

(** [toVertex()]: [new Vertex(this.longitude, this.latitude, this.elevation)]. *)
Definition toVertex (this : t) : Vertex.t :=
  Vertex.Vertex (longitude this) (latitude this) (elevation this).

(** [GeoPoint.fromVertex(vertex)]; [None] is a missing (falsy) argument. *)
Definition fromVertex (vertex : option Vertex.t) : t :=
  match vertex with
  | None => _init None None None
  | Some v => _init (Some (Vertex.y v)) (Some (Vertex.x v)) (Some (Vertex.y v))
  end.

End GeoPoint.

(** ** atlas/visualisation/VisualisationManager *)

Module VisualisationManager.

(** A projection object as the manager sees it: an object identity and its
    [ARTIFACT].  Its [render] and [unrender] methods act outside the
    manager; the calls made on it are recorded in order. *)
Record projection := { ident : nat; ARTIFACT : string }.

(** What a property of [_projections] can hold. *)
Inductive slot :=
| Null
| Obj (p : projection).

(** What [this._projections[artifact]] reads: the object's own property,
    else what the object inherits under that name, else [undefined]. *)
Inductive read :=
| Absent
| Inherited
| Own (s : slot).

Inductive call :=
| ConsoleDebug (target : string)
| Render (p : projection)
| Unrender (p : projection).

Record t := { _projections : gmap string slot; calls : list call }.

(** [new VisualisationManager(atlasManagers)]. *)
Definition new : t := {| _projections := ∅; calls := [] |}.

Definition log (cs : list call) (this : t) : t :=
  {| _projections := _projections this; calls := calls this ++ cs |}.

Definition store (target : string) (s : slot) (this : t) : t :=
  {| _projections := <[target := s]> (_projections this); calls := calls this |}.

(** [this._projections[artifact]]; [_projections] is a plain object. *)
Definition get (artifact : string) (this : t) : read :=
  match _projections this !! artifact with
  | Some s => Own s
  | None => if Js.inherited artifact then Inherited else Absent
  end.

(** [add(projection)].  The result is [None] for [undefined]. *)
Definition add (p : projection) (this : t) : Js.completion (option projection) * t :=
  let target := ARTIFACT p in
  match get target this with
  | Absent => (Js.Return None, store target (Obj p) this)
  | Inherited | Own Null =>
      (* [old !== undefined] holds for [null] and for what is inherited;
         [old.unrender()] throws. *)
      (Js.Throw Js.TypeError, log [ConsoleDebug target] this)
  | Own (Obj old) =>
      (Js.Return (Some old),
       store target (Obj p) (log [ConsoleDebug target; Unrender old] this))
  end.

(** [remove(artifact)].  The result is the value read from the registry:
    [None] for [undefined].  What is inherited is truthy, and calling its
    [unrender] throws. *)
Definition remove (artifact : string) (this : t) : Js.completion (option slot) * t :=
  match get artifact this with
  | Own (Obj removedProjection) =>
      (Js.Return (Some (Obj removedProjection)),
       store artifact Null (log [Unrender removedProjection] this))
  | Own Null => (Js.Return (Some Null), this)
  | Absent => (Js.Return None, this)
  | Inherited => (Js.Throw Js.TypeError, this)
  end.

(** [render(artifact)].  What is inherited passes the test
    [!this._projections[artifact]], and calling its [render] throws. *)
Definition render (artifact : string) (this : t) : Js.completion unit * t :=
  match get artifact this with
  | Own (Obj p) => (Js.Return tt, log [Render p] this)
  | Inherited => (Js.Throw Js.TypeError, this)
  | Own Null | Absent =>
      (Js.Throw (Js.DeveloperError "Tried to render projection" artifact), this)
  end.

(** [unrender(artifact)]. *)
Definition unrender (artifact : string) (this : t) : Js.completion unit * t :=
  match get artifact this with
  | Own (Obj p) => (Js.Return tt, log [Unrender p] this)
  | Inherited => (Js.Throw Js.TypeError, this)
  | Own Null | Absent =>
      (Js.Throw (Js.DeveloperError "Tried to unrender projection" artifact), this)
  end.

(** The projection registered for an artifact, if any. *)
Definition registered (artifact : string) (this : t) : option projection :=
  match _projections this !! artifact with
  | Some (Obj p) => Some p
  | _ => None
  end.

(** The public operations, for statements about arbitrary call sequences. *)
Inductive op :=
| OpAdd (p : projection)
| OpRemove (artifact : string)
| OpRender (artifact : string)
| OpUnrender (artifact : string).

Definition run (o : op) (this : t) : t :=
  match o with
  | OpAdd p => snd (add p this)
  | OpRemove a => snd (remove a this)
  | OpRender a => snd (render a this)
  | OpUnrender a => snd (unrender a this)
  end.

Definition run_all (os : list op) (this : t) : t := foldl (fun m o => run o m) this os.

End VisualisationManager.

(** ** The projection interface *)

(** Modelled from the spec: the capabilities of AbstractProjection (the file
    atlas/visualisation/AbstractProjection.js) that DynamicProjection
    depends on: [getPreviousState], [render], [unrender], and writing its
    [values]. *)

Class Projection (P : Type) := {
  getPreviousState : P → gmap string Js.value;
  setValues : gmap string Js.value → P → P;
  render : P → P;
  unrender : P → P
}.

(** ** The mocked projection of the DynamicProjection suite

    [mockedPrj = new AbstractProjection({values: {}, entities: someEntities})]
    with [getPreviousState], [render] and [unrender] replaced by the
    functions the suite's [beforeEach] defines. *)

Module MockProjection.

(** A Feature as the mock uses it: the holder of a [mockedValue]. *)
Record Feature := { mockedValue : Js.value }.

Record Effect := { oldValue : Js.value; newValue : Js.value }.

Record t := {
  _entities : gmap string Feature;
  _values : gmap string Js.value;
  _effects : gmap string Effect
}.

(** Modelled from the spec: the constructor of AbstractProjection, called
    by the suite with [{values: {}, entities: someEntities}]; nothing has
    been rendered, so no effect is recorded. *)
Definition new (values : gmap string Js.value) (entities : gmap string Feature) : t :=
  {| _entities := entities; _values := values; _effects := ∅ |}.

(** [state[id] = this._entities[id].mockedValue] for every key. *)
Definition getPreviousState (this : t) : gmap string Js.value :=
  foldl (fun state id =>
           match _entities this !! id with
           | Some e => <[id := mockedValue e]> state
           | None => state
           end) ∅ (Js.keys (_entities this)).

(** One round of the loop of the mocked [render]. *)
Definition render_entity (this : t) (id : string) : t :=
  match _entities this !! id with
  | Some e =>
      let curVal := mockedValue e in
      let newVal := Js.get (_values this) id in
      {| _entities := <[id := {| mockedValue := newVal |}]> (_entities this);
         _values := _values this;
         _effects := <[id := {| oldValue := curVal; newValue := newVal |}]> (_effects this) |}
  | None => this
  end.

Definition render (this : t) : t :=
  foldl render_entity this (Js.keys (_entities this)).

(** One round of the loop of the mocked [unrender]:
    [delete this._effects[id]; this._entities[id].mockedValue = id]. *)
Definition unrender_entity (this : t) (id : string) : t :=
  match _entities this !! id with
  | Some e =>
      {| _entities := <[id := {| mockedValue := Js.String id |}]> (_entities this);
         _values := _values this;
         _effects := delete id (_effects this) |}
  | None => this
  end.

Definition unrender (this : t) : t :=
  foldl unrender_entity this (Js.keys (_entities this)).

Definition setValues (values : gmap string Js.value) (this : t) : t :=
  {| _entities := _entities this; _values := values; _effects := _effects this |}.

(** What entity [id] currently shows ([someEntities[id].mockedValue]). *)
Definition shown (this : t) (id : string) : option Js.value :=
  mockedValue <$> _entities this !! id.

(** Every entity shows the value a frame gives it. *)
Definition reflects (this : t) (values : gmap string Js.value) : Prop :=
  ∀ id e, _entities this !! id = Some e → mockedValue e = Js.get values id.

End MockProjection.

#[global] Instance mock_projection : Projection MockProjection.t := {|
  getPreviousState := MockProjection.getPreviousState;
  setValues := MockProjection.setValues;
  render := MockProjection.render;
  unrender := MockProjection.unrender
|}.

(** ** The timer service

    The service DynamicProjection schedules its ticks on:
    schedule-once-after-delay and cancel-scheduled, on a clock that the
    suite moves forward by hand.  Time is counted in the units of the tick
    interval (milliseconds in the suite).  Nothing here limits the number of
    pending callbacks. *)

Module Timer.

Definition handle : Type := nat.

Record t := {
  now : N;
  pending : list (handle * N);   (* handle and due time, in scheduling order *)
  fresh : handle
}.

Definition new : t := {| now := 0; pending := []; fresh := 0 |}.

(** [setTimeout(callback, delay)]: the callback is due at [now + delay]. *)
Definition setTimeout (delay : N) (clk : t) : handle * t :=
  (fresh clk,
   {| now := now clk;
      pending := pending clk ++ [(fresh clk, (now clk + delay)%N)];
      fresh := S (fresh clk) |}).

(** [clearTimeout(h)]; clearing nothing, or a handle that is no longer
    pending, changes nothing. *)
Definition clearTimeout (h : option handle) (clk : t) : t :=
  match h with
  | None => clk
  | Some h =>
      {| now := now clk;
         pending := filter (fun e => e.1 ≠ h) (pending clk);
         fresh := fresh clk |}
  end.

(** One unit of time passes. *)
Definition advance (clk : t) : t :=
  {| now := (now clk + 1)%N; pending := pending clk; fresh := fresh clk |}.

(** The handles whose callbacks are due. *)
Definition due (clk : t) : list handle :=
  (filter (fun e => (e.2 ≤ now clk)%N) (pending clk)).*1.

Definition is_pending (h : handle) (clk : t) : bool :=
  bool_decide (h ∈ (pending clk).*1).

End Timer.

(** ** atlas/visualisation/DynamicProjection *)

Module DynamicProjection.

Inductive status := stopped | playing | paused | ended.

Record Frame := { index : Z; values : gmap string Js.value }.

(** The default tick interval. *)
Definition defaultInterval : positive := 1000.

Section Engine.

Context {P : Type} `{Projection P}.

(** Modelled from the spec: the fields of a DynamicProjection (the file
    atlas/visualisation/DynamicProjection.js); [_timer] is the handle of the
    pending tick, [_interval] the fixed tick interval. *)
Record t := {
  wrapped : P;
  frames : list Frame;
  initial : option (gmap string Js.value);
  _status : status;
  currentFrameIndex : nat;
  _timer : option Timer.handle;
  _interval : positive
}.

(** A DynamicProjection together with the timer service it schedules its
    ticks on. *)
Record world := { dyn : t; clock : Timer.t }.

(** Modelled from the spec: the constructor of DynamicProjection.  An empty
    frame sequence is a construction-time error ([None]); the projection is
    not touched; the interval defaults to 1000. *)
Definition new (projection : P) (data : list Frame) (interval : option positive) : option t :=
  match data with
  | [] => None
  | _ :: _ =>
      Some {| wrapped := projection;
              frames := data;
              initial := None;
              _status := stopped;
              currentFrameIndex := 0;
              _timer := None;
              _interval := default defaultInterval interval |}
  end.

(** The world right after construction, on a clock nothing is scheduled on. *)
Definition boot (d : t) : world := {| dyn := d; clock := Timer.new |}.

(** Modelled from the spec: [getStatus()] of DynamicProjection. *)
Definition getStatus (w : world) : status := _status (dyn w).

(** Modelled from the spec: scheduling the next tick of DynamicProjection
    after the fixed interval, remembering its handle. *)
Definition schedule (d : t) (clk : Timer.t) : world :=
  let (h, clk') := Timer.setTimeout (Npos (_interval d)) clk in
  {| dyn := {| wrapped := wrapped d;
               frames := frames d;
               initial := initial d;
               _status := _status d;
               currentFrameIndex := currentFrameIndex d;
               _timer := Some h;
               _interval := _interval d |};
     clock := clk' |}.

(** Modelled from the spec: applying a frame of DynamicProjection, that is
    storing its values in [wrapped.values] and calling [wrapped.render()]. *)
Definition apply_frame (f : Frame) (p : P) : P := render (setValues (values f) p).

(** Modelled from the spec: [start()] of DynamicProjection. *)
Definition start (w : world) : world :=
  let d := dyn w in
  match _status d with
  | stopped =>
      match frames d !! 0 with
      | Some f =>
          schedule {| wrapped := apply_frame f (wrapped d);
                      frames := frames d;
                      initial := Some (getPreviousState (wrapped d));
                      _status := playing;
                      currentFrameIndex := 0;
                      _timer := _timer d;
                      _interval := _interval d |} (clock w)
      | None => w   (* no frames: excluded by the constructor *)
      end
  | paused =>
      schedule {| wrapped := wrapped d;
                  frames := frames d;
                  initial := initial d;
                  _status := playing;
                  currentFrameIndex := currentFrameIndex d;
                  _timer := _timer d;
                  _interval := _interval d |} (clock w)
  | playing | ended => w
  end.

(** Modelled from the spec: the scheduled tick of DynamicProjection.  The
    cursor moves on by one; past the last frame playback ends, nothing is
    scheduled or unrendered and the cursor stays on the last frame (the
    cursor of an ended projection is a frame index); otherwise the new frame
    is applied and the next tick scheduled. *)
Definition tick (w : world) : world :=
  let d := dyn w in
  let i := S (currentFrameIndex d) in
  match frames d !! i with
  | None =>
      {| dyn := {| wrapped := wrapped d;
                   frames := frames d;
                   initial := initial d;
                   _status := ended;
                   currentFrameIndex := currentFrameIndex d;
                   _timer := None;
                   _interval := _interval d |};
         clock := clock w |}
  | Some f =>
      schedule {| wrapped := apply_frame f (wrapped d);
                  frames := frames d;
                  initial := initial d;
                  _status := _status d;
                  currentFrameIndex := i;
                  _timer := _timer d;
                  _interval := _interval d |} (clock w)
  end.

(** Modelled from the spec: [pause()] of DynamicProjection; outside
    [playing] it does nothing. *)
Definition pause (w : world) : world :=
  let d := dyn w in
  match _status d with
  | playing =>
      {| dyn := {| wrapped := wrapped d;
                   frames := frames d;
                   initial := initial d;
                   _status := paused;
                   currentFrameIndex := currentFrameIndex d;
                   _timer := None;
                   _interval := _interval d |};
         clock := Timer.clearTimeout (_timer d) (clock w) |}
  | _ => w
  end.

(** Modelled from the spec: [stop()] of DynamicProjection, valid from any
    status.  The values go back to the snapshot taken by [start()] (there is
    none to go back to before the first start). *)
Definition stop (w : world) : world :=
  let d := dyn w in
  let restored :=
    match initial d with
    | Some v => setValues v (wrapped d)
    | None => wrapped d
    end in
  {| dyn := {| wrapped := unrender restored;
               frames := frames d;
               initial := initial d;
               _status := stopped;
               currentFrameIndex := 0;
               _timer := None;
               _interval := _interval d |};
     clock := Timer.clearTimeout (_timer d) (clock w) |}.

(** Modelled from the spec: the callback DynamicProjection hands to the
    timer service.  When the timer fires it leaves the pending list and the
    tick runs; a handle that was cancelled in the meantime does nothing. *)
Definition fire (w : world) (h : Timer.handle) : world :=
  if Timer.is_pending h (clock w)
  then tick {| dyn := dyn w; clock := Timer.clearTimeout (Some h) (clock w) |}
  else w.

(** One unit of time elapses: the callbacks that are now due run in the order
    they were scheduled. *)
Definition elapse1 (w : world) : world :=
  let clk := Timer.advance (clock w) in
  foldl fire {| dyn := dyn w; clock := clk |} (Timer.due clk).

(** [ms] units of time elapse (the suite's [jasmine.Clock.tick(ms)]). *)
Definition elapse (ms : N) (w : world) : world := N.iter ms elapse1 w.

(** The states the engine can get into: construction, then any sequence of
    [start], [pause], [stop] and the passing of time. *)
Inductive reachable : world → Prop :=
| reach_new projection data interval d :
    new projection data interval = Some d → reachable (boot d)
| reach_start w : reachable w → reachable (start w)
| reach_pause w : reachable w → reachable (pause w)
| reach_stop w : reachable w → reachable (stop w)
| reach_elapse ms w : reachable w → reachable (elapse ms w).

(** The number of ticks waiting to fire. *)
Definition pending_ticks (w : world) : nat := length (Timer.pending (clock w)).

(** The same world [ms] units of time later, when no callback ran. *)
Definition later (ms : N) (w : world) : world :=
  {| dyn := dyn w;
     clock := {| Timer.now := (Timer.now (clock w) + ms)%N;
                 Timer.pending := Timer.pending (clock w);
                 Timer.fresh := Timer.fresh (clock w) |} |}.

(** What holds of every reachable world: there are frames and the cursor is
    on one of them; while playing exactly one tick is pending, the one the
    engine holds the handle of, due within one interval; in every other
    status no tick is pending; once started there is a snapshot. *)
Definition inv (w : world) : Prop :=
  let d := dyn w in
  let clk := clock w in
  currentFrameIndex d < length (frames d) ∧
  match _status d with
  | playing =>
      ∃ h due, _timer d = Some h ∧ Timer.pending clk = [(h, due)] ∧
               (Timer.now clk < due ≤ Timer.now clk + Npos (_interval d))%N ∧
               is_Some (initial d)
  | paused | ended => Timer.pending clk = [] ∧ is_Some (initial d)
  | stopped => Timer.pending clk = []
  end.


(** The engine is playing and has only just scheduled its next tick. *)
Definition just_scheduled (w : world) : Prop :=
  _status (dyn w) = playing ∧
  ∃ h, _timer (dyn w) = Some h ∧
       Timer.pending (clock w)
       = [(h, (Timer.now (clock w) + Npos (_interval (dyn w)))%N)].

(** Two worlds of one engine: same frames, interval and snapshot. *)
Definition same_setup (w w' : world) : Prop :=
  frames (dyn w') = frames (dyn w) ∧
  _interval (dyn w') = _interval (dyn w) ∧
  initial (dyn w') = initial (dyn w).

End Engine.

Arguments t P : clear implicits.
Arguments world P : clear implicits.

End DynamicProjection.

(** ** The fixture of the DynamicProjection suite *)

Module Suite.

Import DynamicProjection.

Definition frame (i : Z) (v0 v1 v2 v3 v4 : Z) : Frame :=
  {| index := i;
     values := list_to_map [("0", Js.int v0); ("1", Js.int v1); ("2", Js.int v2);
                            ("3", Js.int v3); ("4", Js.int v4)] |}.

Definition data : list Frame :=
  [frame 0 0 10 20 30 40; frame 1 1 11 21 31 41; frame 2 2 12 22 32 42].

Definition feature (v : Z) : MockProjection.Feature :=
  {| MockProjection.mockedValue := Js.int v |}.

Definition someEntities : gmap string MockProjection.Feature :=
  list_to_map [("0", feature 0); ("1", feature 1); ("2", feature 2);
               ("3", feature 3); ("4", feature 4)].

Definition mockedPrj : MockProjection.t := MockProjection.new ∅ someEntities.

(** [dynPrj = new DynamicProjection(mockedPrj, data)], on a fresh clock. *)
Definition dynPrj : world MockProjection.t :=
  boot {| wrapped := mockedPrj;
          frames := data;
          initial := None;
          _status := stopped;
          currentFrameIndex := 0;
          _timer := None;
          _interval := defaultInterval |}.

(** [someEntities[id].mockedValue] in a world. *)
Definition mocked (w : world MockProjection.t) (id : string) : option Js.value :=
  MockProjection.shown (wrapped (dyn w)) id.

(** [Object.keys(someEntities)]. *)
Definition ids : list string := ["0"; "1"; "2"; "3"; "4"].

(** The [mockedValue] of the five entities in a world. *)
Definition mockedValues (w : world MockProjection.t) : list (option Js.value) :=
  mocked w <$> ids.

(** What the five entities show when each shows the given Number. *)
Definition numbers (v0 v1 v2 v3 v4 : Z) : list (option Js.value) :=
  [Some (Js.int v0); Some (Js.int v1); Some (Js.int v2); Some (Js.int v3);
   Some (Js.int v4)].

(** The three sets of values of [data], entity by entity. *)
Definition data0 : list (option Js.value) := numbers 0 10 20 30 40.
Definition data1 : list (option Js.value) := numbers 1 11 21 31 41.
Definition data2 : list (option Js.value) := numbers 2 12 22 32 42.

End Suite.

(** ** The engine on the mocked projection: what the proofs keep track of *)

Module MockedPlayback.

Import DynamicProjection.

(** The snapshot taken by [start()] has a value for every entity of the
    mocked projection, and for nothing else. *)
Definition snapshot_covers (w : world MockProjection.t) : Prop :=
  ∀ init, initial (dyn w) = Some init →
    ∀ id, is_Some (init !! id)
          ↔ is_Some (MockProjection._entities (wrapped (dyn w)) !! id).




End MockedPlayback.

(** ** More of atlas/model/GeoPoint and its callers *)

Module GeoPointStatics.

(** The argument of [GeoPoint.fromLatLngHeight]: an object whose [lat], [lng]
    and [height] are Numbers or missing. *)
Record LatLngHeight := {
  lat : option Js.number;
  lng : option Js.number;
  height : option Js.number
}.

(** [GeoPoint.fromLatLngHeight(other)]. *)
Definition fromLatLngHeight (other : LatLngHeight) : GeoPoint.t :=
  GeoPoint._init (lat other) (lng other) (height other).

(** [WKT._verticesToGeoPoints(vertices)] of atlas/util/WKT: every vertex goes
    through [GeoPoint.fromVertex]. *)
Definition _verticesToGeoPoints (vertices : list Vertex.t) : list GeoPoint.t :=
  (fun vertex => GeoPoint.fromVertex (Some vertex)) <$> vertices.

End GeoPointStatics.

(** ** Statements about sequences of VisualisationManager calls *)

Module VisualisationManagerCalls.

Import VisualisationManager.

(** A projection had [render()] or [unrender()] called on it. *)
Definition called (p : projection) (cs : list call) : Prop :=
  Render p ∈ cs ∨ Unrender p ∈ cs.

(** The artifact an operation is about. *)
Definition artifact_of (o : op) : string :=
  match o with
  | OpAdd p => ARTIFACT p
  | OpRemove a | OpRender a | OpUnrender a => a
  end.

End VisualisationManagerCalls.

(** ** More of JavaScript: strings and arrays *)

Module JsLib.

(** The white space and line terminators of ECMAScript 5 among the code
    units below 256, which are the characters a [string] here is made of:
    TAB, LF, VT, FF, CR, space and the no-break space. *)
Definition is_white_space (c : Ascii.ascii) : bool :=
  match Ascii.N_of_ascii c with
  | 9 | 10 | 11 | 12 | 13 | 32 | 160 => true
  | _ => false
  end%N.

Fixpoint trim_start (s : string) : string :=
  match s with
  | EmptyString => EmptyString
  | String c rest => if is_white_space c then trim_start rest else s
  end.

(** [s.trim()]. *)
Definition trim (s : string) : string :=
  String.rev (trim_start (String.rev (trim_start s))).

(** [s.indexOf(t)]: the position of the first occurrence of [t] in [s], or
    [-1]. *)
Definition indexOf (s t : string) : Z :=
  match String.index 0 t s with
  | Some n => Z.of_nat n
  | None => (-1)%Z
  end.

(** [array.splice(start, deleteCount, item)] and
    [array.splice(start, deleteCount)] for integer arguments: the array
    afterwards.  A negative [start] counts from the end, and both arguments
    are clamped to the array. *)
Definition splice {A : Type} (start deleteCount : Z) (items : list A) (array : list A)
  : list A :=
  let len := Z.of_nat (length array) in
  let actualStart :=
    if (start <? 0)%Z then Z.max (len + start) 0 else Z.min start len in
  let actualDeleteCount := Z.min (Z.max deleteCount 0) (len - actualStart) in
  take (Z.to_nat actualStart) array ++ items
  ++ drop (Z.to_nat (actualStart + actualDeleteCount)) array.

End JsLib.

(** ** atlas/model/GeoEntity: dirty tracking

    The fields and methods by which a GeoEntity keeps track of the components
    that have to be rendered again: [setDirty], [_setDirty],
    [_invalidateGeometry], [setClean], [isDirty], [clean], [isRenderable].
    The component names are taken not to name properties that every object
    inherits (such as ["toString"]), for which [this._dirty[component]] is
    never [undefined]. *)

Module GeoEntity.

Record t := {
  _dirty : gmap string bool;
  _dirtyCount : Z;
  _centroid : option GeoPoint.t;
  _area : option Js.number
}.

(** [this._dirty[component]] read as a condition. *)
Definition flagged (component : string) (this : t) : bool :=
  default false (_dirty this !! component).

(** [_setDirty(component)]. *)
Definition _setDirty (component : string) (this : t) : t :=
  if flagged component this then this
  else {| _dirty := <[component := true]> (_dirty this);
          _dirtyCount := _dirtyCount this + 1;
          _centroid := _centroid this;
          _area := _area this |}.

(** [_invalidateGeometry()]. *)
Definition _invalidateGeometry (this : t) : t :=
  {| _dirty := _dirty this;
     _dirtyCount := _dirtyCount this;
     _centroid := None;
     _area := None |}.

(** [isDirty(component)]; without a component ([None]) the answer is whether
    [_dirtyCount > 0], with one it is [this._dirty[component]], which is
    [true] or [undefined] ([None]). *)
Definition isDirty (component : option string) (this : t) : option bool :=
  match component with
  | None => Some (0 <? _dirtyCount this)%Z
  | Some c => _dirty this !! c
  end.

(** [setDirty(component)] for a component that is a string, or that is
    neither a string nor an object ([undefined], a Number), in which case
    nothing is marked.  Arrays and object literals of component names are
    not covered. *)
Definition setDirty (component : Js.value) (this : t) : t :=
  let this :=
    match component with
    | Js.String c => _setDirty c this
    | _ => this
    end in
  if flagged "entity" this || flagged "vertices" this || flagged "model" this
  then _invalidateGeometry this
  else this.

(** [setClean(component)]; a missing component ([None]) is the property key
    ["undefined"]. *)
Definition setClean (component : option string) (this : t) : t :=
  let key := default "undefined" component in
  if flagged key this
  then {| _dirty := delete key (_dirty this);
          _dirtyCount := _dirtyCount this - 1;
          _centroid := _centroid this;
          _area := _area this |}
  else this.

(** [clean()]. *)
Definition clean (this : t) : t :=
  {| _dirty := ∅;
     _dirtyCount := 0;
     _centroid := _centroid this;
     _area := _area this |}.

(** [isRenderable()]: [!this.isDirty()]. *)
Definition isRenderable (this : t) : bool := negb (0 <? _dirtyCount this)%Z.

(** The dirty-tracking calls, for statements about sequences of them. *)
Inductive op :=
| OpSetDirty (component : Js.value)
| OpSetClean (component : option string)
| OpClean.

Definition run (this : t) (o : op) : t :=
  match o with
  | OpSetDirty c => setDirty c this
  | OpSetClean c => setClean c this
  | OpClean => clean this
  end.

(** The flags are all [true] and [_dirtyCount] is their number. *)
Definition counted (this : t) : Prop :=
  map_Forall (fun _ b => b = true) (_dirty this) ∧
  _dirtyCount this = Z.of_nat (size (_dirty this)).

End GeoEntity.

(** ** atlas/entity/EntityManager

    The registry of entities by id: [add], [remove], [getById], [getByIds],
    [setGeoEntityTypes], [initialise].  The ids are taken not to name
    properties that every object inherits (such as ["toString"]). *)

Module EntityManager.

(** An entity as the manager sees it: an object identity; the [cleanUp()]
    the manager calls on it is recorded. *)
Record entity := { ident : nat }.

(** A constructor of entities: one of Atlas' own, or one handed in. *)
Inductive constructor :=
| Atlas (name : string)
| Custom (n : nat).

Inductive call :=
| ConsoleLog (message : string) (id : string)
| ConsoleDebug (message : string) (ids : list string)
| CleanUp (e : entity).

Record t := {
  _entities : gmap string entity;
  _entityTypes : gmap string constructor;
  calls : list call
}.

(** [new EntityManager(atlasManagers)]. *)
Definition new : t :=
  {| _entities := ∅;
     _entityTypes := {[ "Feature" := Atlas "Feature";
                        "Polygon" := Atlas "Polygon";
                        "Mesh" := Atlas "Mesh" ]};
     calls := [] |}.

Definition log (c : call) (this : t) : t :=
  {| _entities := _entities this;
     _entityTypes := _entityTypes this;
     calls := calls this ++ [c] |}.

(** One round of the loop of [setGeoEntityTypes]. *)
Definition setGeoEntityType (constructors : gmap string constructor)
    (types : gmap string constructor) (key : string) : gmap string constructor :=
  match constructors !! key, types !! key with
  | Some c, Some _ => <[key := c]> types
  | _, _ => types
  end.

(** [setGeoEntityTypes(constructors)]. *)
Definition setGeoEntityTypes (constructors : gmap string constructor) (this : t) : t :=
  {| _entities := _entities this;
     _entityTypes := foldl (setGeoEntityType constructors) (_entityTypes this)
                       (Js.keys constructors);
     calls := calls this |}.

(** [initialise(args)], given [args.constructors] ([None] when missing). *)
Definition initialise (constructors : option (gmap string constructor)) (this : t) : t :=
  match constructors with
  | Some cs => setGeoEntityTypes cs this
  | None => this
  end.

(** [add(id, entity)].  The test [!entity instanceof GeoEntity] applies
    [instanceof] to a boolean and is never true, so nothing is thrown. *)
Definition add (id : string) (e : entity) (this : t) : bool * t :=
  match _entities this !! id with
  | Some _ => (false, log (ConsoleLog "tried to add entity" id) this)
  | None =>
      (true,
       {| _entities := <[id := e]> (_entities this);
          _entityTypes := _entityTypes this;
          calls := calls this ++ [ConsoleDebug "entityManager: added entity" [id]] |})
  end.

(** [remove(id)]. *)
Definition remove (id : string) (this : t) : t :=
  match _entities this !! id with
  | Some e =>
      {| _entities := delete id (_entities this);
         _entityTypes := _entityTypes this;
         calls := calls this ++ [ConsoleDebug "entityManager: deleted entity" [id];
                                 CleanUp e] |}
  | None => this
  end.

(** [getById(id)]; [None] is [undefined]. *)
Definition getById (id : string) (this : t) : option entity * t :=
  (_entities this !! id, log (ConsoleDebug "entityManager: got entity" [id]) this).


End EntityManager.

(** ** atlas/util/WKT: the tests on WKT strings, and swapCoords *)

Module WKT.

(** [_isType(wktStr, type)]; anything but a string is no WKT. *)
Definition _isType (wktStr : Js.value) (type : string) : bool :=
  match wktStr with
  | Js.String s => bool_decide (JsLib.indexOf (JsLib.trim s) type = 0%Z)
  | _ => false
  end.

Definition isPoint (wktStr : Js.value) : bool := _isType wktStr "POINT".
Definition isLine (wktStr : Js.value) : bool := _isType wktStr "LINESTRING".
Definition isPolygon (wktStr : Js.value) : bool := _isType wktStr "POLYGON".

Definition isWKT (wktStr : Js.value) : bool :=
  isPoint wktStr || isLine wktStr || isPolygon wktStr.

(** An element of the array handed to [swapCoords]: an object with [x] and
    [y] (a Vertex, say) or an array of values. *)
Inductive coord :=
| XY (x y : Js.value)
| Arr (elems : list Js.value).

(** What [swapCoords] can throw: a TypeError, or the [DevError] it
    constructs. *)
Inductive error :=
| TypeError
| DevError (message : string).

(** How [swapCoords] completes, and the array as it is then: the swaps are
    made in place, so those made before an exception stay. *)
Inductive completion :=
| Return (coords : list (option coord))
| Throw (e : error) (coords : list (option coord)).

(** [coords[i] = v], which lengthens the array when [i] is its length. *)
Definition set_index {A : Type} (i : nat) (v : option A) (array : list (option A))
  : list (option A) :=
  if decide (i < length array) then <[i := v]> array
  else array ++ replicate (i - length array) None ++ [v].

(** One call of the function that [swapCoords] hands to [forEach], for the
    element at index [i].  An entry of the array is [None] when it holds
    [undefined]. *)
Definition swapCoord (coords : list (option coord)) (i : nat) : completion :=
  match coords !! i with
  | None => Return coords
  | Some None => Throw TypeError coords
  | Some (Some (XY x y)) =>
      match x with
      | Js.Undefined => Throw (DevError "Invalid arguments") coords
      | _ => Return (<[i := Some (XY y x)]> coords)
      end
  | Some (Some (Arr elems)) =>
      if decide (length elems = 2)
      then let tmp := mjoin (coords !! 0) in
           let coords := set_index 0 (mjoin (coords !! 1)) coords in
           Return (set_index 1 tmp coords)
      else Throw (DevError "Invalid arguments") coords
  end.

(** [swapCoords(coords)]: [forEach] visits the indices the array had at the
    start, in order, and stops at the first exception.  The objects of the
    array are taken to be distinct. *)
Definition swapCoords (coords : list coord) : completion :=
  foldl (fun acc i =>
           match acc with
           | Return cs => swapCoord cs i
           | Throw e cs => Throw e cs
           end)
        (Return (Some <$> coords)) (seq 0 (length coords)).

End WKT.

(** ** atlas/model/LineNetwork: nodes and the node ids of a line

    What [addNode], [_getLineGeoPoints], [insertNodeIntoLine] and
    [removeNodeFromLine] do with the array of nodes and with the array of
    node ids of a line.  The line data is what [this._lineData.get(lineId)]
    returned ([None] when it is [undefined] or [null], for the store holding
    no such line); the rebuilding of the Line object that follows a change is
    not part of it. *)

Module LineNetwork.

(** The part of a line's data these methods use. *)
Record LineData := { nodeIds : list nat }.

(** [addNode(node)]: the node array afterwards and the id returned. *)
Definition addNode (node : GeoPoint.t) (_nodeData : list GeoPoint.t)
  : list GeoPoint.t * nat :=
  let _nodeData := _nodeData ++ [node] in
  (_nodeData, length _nodeData - 1).

(** [_getLineGeoPoints(lineData)]: [nodes[id]] for every node id; [None] is
    [undefined]. *)
Definition _getLineGeoPoints (lineData : LineData) (_nodeData : list GeoPoint.t)
  : list (option GeoPoint.t) :=
  (fun id => _nodeData !! id) <$> nodeIds lineData.

Inductive error :=
| TypeError
| DeveloperError (message : string).

(** How [insertNodeIntoLine] goes on. *)
Inductive outcome :=
| Thrown (e : error)
| Refused                         (* [Log.warn(...)], then [return] *)
| Spliced (lineData : LineData).  (* then [_rebuildLine(lineId, 'vertices')] *)

(** [insertNodeIntoLine(lineId, nodeId, position)], up to the call of
    [_rebuildLine]; [position] is an integer or missing. *)
Definition insertNodeIntoLine (lineData : option LineData) (_nodeData : list GeoPoint.t)
    (nodeId : nat) (position : option Z) : outcome :=
  let position := default 0%Z position in
  match lineData with
  | None => Thrown TypeError      (* [lineData.nodeIds] of no line data *)
  | Some lineData =>
      let nodeIds := nodeIds lineData in
      match _nodeData !! nodeId with
      | None => Thrown (DeveloperError "Given nodeId does not exist.")
      | Some node =>
          let len := Z.of_nat (length nodeIds) in
          if ((len <? position) || (position <? -1 - len))%Z
          then Refused
          else
            let position :=
              if (position <? 0)%Z then (len + 1 + position)%Z else position in
            Spliced {| nodeIds := JsLib.splice position 0 [nodeId] nodeIds |}
      end
  end.

(** [removeNodeFromLine(lineId, position)], up to the call of
    [_rebuildLine]: with no line data nothing is spliced. *)
Definition removeNodeFromLine (lineData : option LineData) (position : option Z)
  : option LineData :=
  match lineData with
  | Some lineData =>
      Some {| nodeIds := JsLib.splice (default 0%Z position) 1 [] (nodeIds lineData) |}
  | None => None
  end.

End LineNetwork.

(** * Properties *)

(** ** GeoPoint *)

Module GeoPointSpec.

Import GeoPoint.

(** [parseFloat(x) || 0.0] is the identity on plain Numbers. *)
Lemma parse_or_zero_plain (n : Js.number) :
  Js.plain n = true → Js.or (Js.parseFloat (Some n)) Js.zero = n.
Proof. by destruct n as [[]| | |]. Qed.

(** [parseFloat(x) || 0.0] is always a plain Number. *)
Lemma parse_or_zero_is_plain (a : option Js.number) :
  Js.plain (Js.or (Js.parseFloat a) Js.zero) = true.
Proof. by destruct a as [[[]| | |]|]. Qed.

(** A missing vertex gives the origin. *)
Lemma fromVertex_missing :
  fromVertex None = {| latitude := Js.zero; longitude := Js.zero; elevation := Js.zero |}.
Proof. reflexivity. Qed.

(** C10, as stated, fails: the latitude of
    [GeoPoint.fromVertex({x: 1, y: NaN, z: 2})] is [0], not the vertex's [y]. *)
Lemma fromVertex_nan_y :
  let v := Vertex.Vertex (Js.double 1) S754_nan (Js.double 2) in
  latitude (fromVertex (Some v)) = Js.zero ∧
  latitude (fromVertex (Some v)) ≠ Vertex.y v.
Proof. split; [reflexivity | discriminate]. Qed.

(** C10 (amended): for every vertex [v] whose [x] and [y] are plain Numbers
    (neither [NaN] nor [-0], which the constructor turns into [0]),
    [GeoPoint.fromVertex(v)] has latitude [v.y], longitude [v.x] and
    elevation [v.y]; [v.z] is ignored.  So for every GeoPoint [p] with plain
    latitude and longitude, which is every GeoPoint as its constructor
    leaves it, [GeoPoint.fromVertex(p.toVertex())] has the latitude and the
    longitude of [p], and the latitude of [p] as its elevation. *)
Theorem fromVertex_fields (v : Vertex.t) (p : t) :
  Js.plain (Vertex.x v) = true →
  Js.plain (Vertex.y v) = true →
  Js.plain (latitude p) = true →
  Js.plain (longitude p) = true →
  fromVertex (Some v)
  = {| latitude := Vertex.y v; longitude := Vertex.x v; elevation := Vertex.y v |}
  ∧ (∀ z', fromVertex (Some (Vertex.Vertex (Vertex.x v) (Vertex.y v) z')) = fromVertex (Some v))
  ∧ fromVertex (Some (toVertex p))
    = {| latitude := latitude p; longitude := longitude p; elevation := latitude p |}
  ∧ (∀ lat lng elev,
       Js.plain (latitude (_init lat lng elev)) = true ∧
       Js.plain (longitude (_init lat lng elev)) = true).
Proof.
  intros Hx Hy Hlat Hlng. split; [ | split; [ | split ] ].
  - unfold fromVertex, _init.
    by rewrite (parse_or_zero_plain _ Hx), (parse_or_zero_plain _ Hy).
  - done.
  - unfold fromVertex, toVertex, _init. cbn [Vertex.x Vertex.y].
    by rewrite (parse_or_zero_plain _ Hlat), (parse_or_zero_plain _ Hlng).
  - intros lat lng elev. split; apply parse_or_zero_is_plain.
Qed.

(** The theorem at the vertex [(10, 5, 7)] and at [new GeoPoint(5, 10, 7)]. *)
Lemma fromVertex_fields_witness :
  let v := Vertex.Vertex (Js.double 10) (Js.double 5) (Js.double 7) in
  let p := _init (Some (Js.double 5)) (Some (Js.double 10)) (Some (Js.double 7)) in
  fromVertex (Some v)
  = {| latitude := Js.double 5; longitude := Js.double 10; elevation := Js.double 5 |}
  ∧ fromVertex (Some (toVertex p))
    = {| latitude := Js.double 5; longitude := Js.double 10; elevation := Js.double 5 |}.
Proof.
  intros v p.
  destruct (fromVertex_fields v p) as (H1 & _ & H3 & _); try reflexivity.
  split; [exact H1 | exact H3].
Defined.

End GeoPointSpec.

(** ** VisualisationManager *)

Module VisualisationManagerSpec.

Import VisualisationManager.

(** Case analysis on what [this._projections[a]] reads. *)
Ltac read_slot a m :=
  unfold get;
  let Hq := fresh "Hq" in
  let Hinh := fresh "Hinh" in
  destruct (_projections m !! a) as [[|?q]|] eqn:Hq;
  [ | | destruct (Js.inherited a) eqn:Hinh ]; simpl.

Lemma registered_Some (a : string) (m : t) (p : projection) :
  registered a m = Some p ↔ _projections m !! a = Some (Obj p).
Proof.
  unfold registered. destruct (_projections m !! a) as [[|q]|]; split; congruence.
Qed.

Lemma get_Own (a : string) (m : t) (s : slot) :
  _projections m !! a = Some s → get a m = Own s.
Proof. unfold get. by intros ->. Qed.

Lemma registered_get (a : string) (m : t) :
  registered a m = match get a m with Own (Obj p) => Some p | _ => None end.
Proof. unfold registered. by read_slot a m. Qed.

Lemma get_Inherited (a : string) (m : t) :
  get a m = Inherited ↔ _projections m !! a = None ∧ Js.inherited a = true.
Proof. read_slot a m; split; try done; by intros [? ?]. Qed.

(** Adding where a projection is registered: it is unrendered, replaced and
    returned. *)
Lemma add_replaces (p old : projection) (m : t) :
  registered (ARTIFACT p) m = Some old →
  add p m = (Js.Return (Some old),
             store (ARTIFACT p) (Obj p) (log [ConsoleDebug (ARTIFACT p); Unrender old] m))
  ∧ registered (ARTIFACT p) (snd (add p m)) = Some p.
Proof.
  intros Hold%registered_Some. unfold add. rewrite (get_Own _ _ _ Hold).
  split; [done|]. apply registered_Some. simpl. by rewrite lookup_insert_eq.
Qed.

(** Adding where the artifact was never used and names nothing inherited:
    the projection is registered, nothing is unrendered and [undefined] is
    returned. *)
Lemma add_fresh (p : projection) (m : t) :
  _projections m !! ARTIFACT p = None →
  Js.inherited (ARTIFACT p) = false →
  add p m = (Js.Return None, store (ARTIFACT p) (Obj p) m)
  ∧ registered (ARTIFACT p) (snd (add p m)) = Some p.
Proof.
  intros Hnone Hinh. unfold add, get. rewrite Hnone, Hinh. split; [done|].
  apply registered_Some. simpl. by rewrite lookup_insert_eq.
Qed.

(** Once [remove] has put [null] in a slot, no operation changes it. *)
Lemma null_slot_run (a : string) (o : op) (m : t) :
  _projections m !! a = Some Null → _projections (run o m) !! a = Some Null.
Proof.
  intros Hnull. destruct o as [p|b|b|b]; simpl.
  - unfold add. destruct (decide (ARTIFACT p = a)) as [->|Hne].
    + by rewrite (get_Own _ _ _ Hnull).
    + read_slot (ARTIFACT p) m; by rewrite ?lookup_insert_ne.
  - unfold remove. destruct (decide (b = a)) as [->|Hne].
    + by rewrite (get_Own _ _ _ Hnull).
    + read_slot b m; by rewrite ?lookup_insert_ne.
  - unfold render. by read_slot b m.
  - unfold unrender. by read_slot b m.
Qed.

Lemma null_slot_run_all (a : string) (os : list op) (m : t) :
  _projections m !! a = Some Null → _projections (run_all os m) !! a = Some Null.
Proof.
  revert m. induction os as [|o os IH]; intros m Hnull; [done|].
  apply IH. by apply null_slot_run.
Qed.

(** C7 on the code: after [add(p)] and [remove('color')] no projection targets
    the artifact, yet [add(q)] throws a TypeError and registers nothing. *)
Lemma add_after_remove_throws :
  let p := {| ident := 1; ARTIFACT := "color" |} in
  let q := {| ident := 2; ARTIFACT := "color" |} in
  let m := snd (remove "color" (snd (add p new))) in
  registered "color" m = None ∧
  fst (add q m) = Js.Throw Js.TypeError ∧
  registered "color" (snd (add q m)) = None.
Proof. by vm_compute. Qed.

(** C8, as stated, fails for an artifact that names a property every object
    inherits: no projection is registered for ["toString"] in a new manager,
    yet [render] and [unrender] of it throw a TypeError, from calling
    [render()], [unrender()] on the inherited function, and no
    DeveloperError. *)
Lemma render_inherited_name :
  registered "toString" new = None ∧
  fst (render "toString" new) = Js.Throw Js.TypeError ∧
  fst (unrender "toString" new) = Js.Throw Js.TypeError ∧
  ¬ (∃ msg, fst (render "toString" new) = Js.Throw (Js.DeveloperError msg "toString")) ∧
  ¬ (∃ msg, fst (unrender "toString" new) = Js.Throw (Js.DeveloperError msg "toString")).
Proof.
  split; [reflexivity|]. split; [reflexivity|]. split; [reflexivity|].
  split; intros [msg Hmsg]; discriminate Hmsg.
Qed.

(** C8 (amended): [render(artifact)] and [unrender(artifact)] throw a
    DeveloperError exactly when no projection is registered for the artifact
    and the artifact does not read as an inherited property, leaving the
    manager as it was; they throw a TypeError exactly when the artifact reads
    as an inherited property, that is when it names one and nothing is stored
    under it; otherwise they return after calling [render()], respectively
    [unrender()], on the registered projection.  For an artifact that names
    no inherited property this is the claim as it was stated. *)
Theorem render_unrender_spec (a : string) (m : t) :
  ((∃ msg, fst (render a m) = Js.Throw (Js.DeveloperError msg a))
   ↔ registered a m = None ∧ get a m ≠ Inherited)
  ∧ ((∃ msg, fst (unrender a m) = Js.Throw (Js.DeveloperError msg a))
     ↔ registered a m = None ∧ get a m ≠ Inherited)
  ∧ (fst (render a m) = Js.Throw Js.TypeError ↔ get a m = Inherited)
  ∧ (fst (unrender a m) = Js.Throw Js.TypeError ↔ get a m = Inherited)
  ∧ (get a m = Inherited ↔ _projections m !! a = None ∧ Js.inherited a = true)
  ∧ (Js.inherited a = false →
     (registered a m = None
      ↔ ∃ msg, fst (render a m) = Js.Throw (Js.DeveloperError msg a)) ∧
     (registered a m = None
      ↔ ∃ msg, fst (unrender a m) = Js.Throw (Js.DeveloperError msg a)))
  ∧ (registered a m = None → snd (render a m) = m ∧ snd (unrender a m) = m)
  ∧ (∀ p, registered a m = Some p →
       render a m = (Js.Return tt, log [Render p] m) ∧
       unrender a m = (Js.Return tt, log [Unrender p] m)).
Proof.
  split; [|split; [|split; [|split; [|split; [apply get_Inherited|]]]]].
  - unfold registered, render. read_slot a m; split;
      try (by intros [msg ?]); try (by intros [? ?]); try (intros _; split; done);
      intros _; by eexists.
  - unfold registered, unrender. read_slot a m; split;
      try (by intros [msg ?]); try (by intros [? ?]); try (intros _; split; done);
      intros _; by eexists.
  - unfold render. by read_slot a m.
  - unfold unrender. by read_slot a m.
  - split; [|split].
    + intros Hinh. unfold registered, render, unrender, get. rewrite Hinh.
      destruct (_projections m !! a) as [[|q]|]; simpl; split; split;
        try done; try (by intros [msg ?]); intros _; by eexists.
    + unfold registered, render, unrender. by read_slot a m.
    + intros p Hp%registered_Some. unfold render, unrender.
      by rewrite (get_Own _ _ _ Hp).
Qed.

(** C9: [remove(artifact)] of a registered projection leaves [null] in the
    registry, not a missing entry; whatever the manager is asked to do
    afterwards, [add(p)] for that artifact throws a TypeError, [p] is not
    registered and the entry stays [null]. *)
Theorem add_after_remove_TypeError
    (a : string) (m : t) (removed p : projection) (later : list op) :
  registered a m = Some removed →
  ARTIFACT p = a →
  let m1 := snd (remove a m) in
  let m2 := run_all later m1 in
  fst (remove a m) = Js.Return (Some (Obj removed))
  ∧ _projections m1 !! a = Some Null
  ∧ fst (add p m2) = Js.Throw Js.TypeError
  ∧ _projections (snd (add p m2)) !! a = Some Null
  ∧ registered a (snd (add p m2)) = None.
Proof.
  intros Hreg%registered_Some <- m1 m2.
  assert (H1 : _projections m1 !! ARTIFACT p = Some Null).
  { unfold m1, remove. rewrite (get_Own _ _ _ Hreg). simpl.
    by rewrite lookup_insert_eq. }
  assert (H2 : _projections m2 !! ARTIFACT p = Some Null)
    by by apply null_slot_run_all.
  assert (H3 : _projections (snd (add p m2)) !! ARTIFACT p = Some Null)
    by exact (null_slot_run _ (OpAdd p) _ H2).
  repeat split.
  - unfold remove. by rewrite (get_Own _ _ _ Hreg).
  - exact H1.
  - unfold add. by rewrite (get_Own _ _ _ H2).
  - exact H3.
  - unfold registered. by rewrite H3.
Qed.

(** The theorem on a manager holding one colour projection, with a render
    and a second removal attempted before the new projection is added. *)
Lemma add_after_remove_TypeError_witness :
  let old := {| ident := 1; ARTIFACT := "color" |} in
  let p := {| ident := 2; ARTIFACT := "color" |} in
  let m := snd (add old new) in
  let m2 := run_all [OpRender "color"; OpRemove "color"] (snd (remove "color" m)) in
  fst (add p m2) = Js.Throw Js.TypeError ∧ registered "color" (snd (add p m2)) = None.
Proof.
  intros old p m m2.
  destruct (add_after_remove_TypeError "color" m old p
              [OpRender "color"; OpRemove "color"])
    as (_ & _ & H3 & _ & H5); [reflexivity | reflexivity |].
  split; [exact H3 | exact H5].
Defined.

End VisualisationManagerSpec.

(** ** The playback engine on any projection *)

Module EngineSpec.

Import DynamicProjection.

Section Engine.

Context {P : Type} `{Projection P}.

Implicit Types (w : world P) (d : t P) (ms : N).

Lemma later_0 w : later 0 w = w.
Proof.
  destruct w as [d [n ps k]]. unfold later; simpl. by rewrite N.add_0_r.
Qed.

Lemma later_later a b w : later a (later b w) = later (b + a) w.
Proof. unfold later; simpl. by rewrite N.add_assoc. Qed.

Lemma elapse_0 w : elapse 0 w = w.
Proof. reflexivity. Qed.

Lemma elapse_succ ms w : elapse (N.succ ms) w = elapse1 (elapse ms w).
Proof. unfold elapse. by rewrite N.iter_succ. Qed.


(** A unit of time in which nothing is due only moves the clock. *)
Lemma elapse1_nothing_due w :
  Timer.due (Timer.advance (clock w)) = [] → elapse1 w = later 1 w.
Proof. unfold elapse1. by intros ->. Qed.

(** With nothing pending, time passes without effect. *)
Lemma elapse_idle ms w :
  Timer.pending (clock w) = [] → elapse ms w = later ms w.
Proof.
  intros Hp. induction ms as [|ms IH] using N.peano_ind.
  - by rewrite later_0.
  - rewrite elapse_succ, IH, elapse1_nothing_due.
    + by rewrite later_later, N.add_1_r.
    + unfold Timer.due; simpl. by rewrite Hp.
Qed.

(** Before the pending tick is due, time passes without effect. *)
Lemma elapse_quiet ms w h due :
  Timer.pending (clock w) = [(h, due)] →
  (Timer.now (clock w) + ms < due)%N →
  elapse ms w = later ms w.
Proof.
  intros Hp. induction ms as [|ms IH] using N.peano_ind; intros Hlt.
  - by rewrite later_0.
  - rewrite elapse_succ, IH by lia. rewrite elapse1_nothing_due.
    + by rewrite later_later, N.add_1_r.
    + unfold Timer.due; simpl. rewrite Hp; simpl.
      rewrite filter_cons_False, filter_nil; [done | simpl; lia].
Qed.

(** When the pending tick falls due, it leaves the timer and runs. *)
Lemma elapse1_fires w h :
  Timer.pending (clock w) = [(h, (Timer.now (clock w) + 1)%N)] →
  elapse1 w
  = tick {| dyn := dyn w;
            clock := {| Timer.now := (Timer.now (clock w) + 1)%N;
                        Timer.pending := [];
                        Timer.fresh := Timer.fresh (clock w) |} |}.
Proof.
  intros Hp. unfold elapse1, Timer.due; simpl. rewrite Hp; simpl.
  rewrite filter_cons_True, filter_nil by (simpl; lia). simpl.
  unfold fire, Timer.is_pending; simpl. rewrite Hp; simpl.
  rewrite bool_decide_eq_true_2 by set_solver.
  rewrite filter_cons_False, filter_nil by (simpl; congruence).
  done.
Qed.

(** The pending tick runs exactly when its delay has gone by. *)
Lemma elapse_until_due w h (r : positive) :
  Timer.pending (clock w) = [(h, (Timer.now (clock w) + Npos r)%N)] →
  elapse (Npos r) w
  = tick {| dyn := dyn w;
            clock := {| Timer.now := (Timer.now (clock w) + Npos r)%N;
                        Timer.pending := [];
                        Timer.fresh := Timer.fresh (clock w) |} |}.
Proof.
  intros Hp.
  replace (Npos r) with (N.succ (N.pred (Npos r))) at 1 by lia.
  rewrite elapse_succ, (elapse_quiet _ w h _ Hp) by lia.
  erewrite elapse1_fires; simpl.
  - do 3 f_equal. lia.
  - rewrite Hp. do 2 f_equal. lia.
Qed.

(** *** The invariant *)

Lemma inv_boot projection data interval d :
  new projection data interval = Some d → inv (boot d).
Proof.
  destruct data as [|f fs]; [done|]. intros [= <-].
  split; simpl; [lia | done].
Qed.

Lemma inv_schedule d clk :
  currentFrameIndex d < length (frames d) →
  _status d = playing →
  is_Some (initial d) →
  Timer.pending clk = [] →
  inv (schedule d clk).
Proof.
  intros Hi Hs Hinit Hp. split; simpl; [done|]. rewrite Hs, Hp; simpl.
  eexists _, _. repeat split; [lia | lia | done].
Qed.

Lemma inv_start w : inv w → inv (start w).
Proof.
  intros [Hi Hst]. unfold start.
  destruct (_status (dyn w)) eqn:Hs; try (by split; [|rewrite Hs]).
  - destruct (frames (dyn w) !! 0) as [f|] eqn:Hf; [|by split; [|rewrite Hs]].
    apply inv_schedule; simpl; [lia | done | done | done].
  - destruct Hst as [Hp Hinit]. by apply inv_schedule.
Qed.

Lemma inv_pause w : inv w → inv (pause w).
Proof.
  intros [Hi Hst]. unfold pause.
  destruct (_status (dyn w)) eqn:Hs; try (by split; [|rewrite Hs]).
  destruct Hst as (h & due & -> & Hp & _ & Hinit).
  split; simpl; [done|]. rewrite Hp; simpl.
  by rewrite filter_cons_False, filter_nil by (simpl; congruence).
Qed.

Lemma stop_clears w : inv w → Timer.pending (clock (stop w)) = [].
Proof.
  intros [_ Hst]. simpl. destruct (_status (dyn w)).
  - destruct (_timer (dyn w)); simpl; [by rewrite Hst | done].
  - destruct Hst as (h & due & -> & Hp & _). simpl. rewrite Hp.
    by rewrite filter_cons_False, filter_nil by (simpl; congruence).
  - destruct Hst as [Hp _]. destruct (_timer (dyn w)); simpl; [by rewrite Hp | done].
  - destruct Hst as [Hp _]. destruct (_timer (dyn w)); simpl; [by rewrite Hp | done].
Qed.

Lemma inv_stop w : inv w → inv (stop w).
Proof.
  intros Hinv. pose proof (stop_clears w Hinv) as Hp.
  destruct Hinv as [Hi _]. split; [simpl; lia | exact Hp].
Qed.

Lemma inv_later ms w :
  Timer.pending (clock w) = [] → inv w → inv (later ms w).
Proof.
  intros Hp [Hi Hst]. split; [done|]. simpl.
  destruct (_status (dyn w)); try done.
  destruct Hst as (h & due & _ & Hp' & _). congruence.
Qed.

Lemma inv_tick d n k :
  currentFrameIndex d < length (frames d) →
  _status d = playing →
  is_Some (initial d) →
  inv (tick {| dyn := d;
               clock := {| Timer.now := n; Timer.pending := []; Timer.fresh := k |} |}).
Proof.
  intros Hi Hs Hinit. unfold tick; simpl.
  destruct (frames d !! S (currentFrameIndex d)) as [f|] eqn:Hf.
  - apply inv_schedule; simpl; try done. by apply lookup_lt_Some in Hf.
  - by split.
Qed.

Lemma inv_elapse1 w : inv w → inv (elapse1 w).
Proof.
  intros Hinv. pose proof Hinv as [Hi Hst].
  destruct (_status (dyn w)) eqn:Hs.
  - rewrite elapse1_nothing_due; [by apply inv_later|].
    unfold Timer.due; simpl. by rewrite Hst.
  - destruct Hst as (h & due & Ht & Hp & [Hlo Hhi] & Hinit).
    destruct (decide (due = Timer.now (clock w) + 1)%N) as [->|Hne].
    + rewrite (elapse1_fires w h Hp). by apply inv_tick.
    + rewrite elapse1_nothing_due.
      * split; [done|]. simpl. rewrite Hs.
        exists h, due. repeat split; try done; lia.
      * unfold Timer.due; simpl. rewrite Hp.
        rewrite filter_cons_False, filter_nil; [done | simpl; lia].
  - destruct Hst as [Hp ?]. rewrite elapse1_nothing_due; [by apply inv_later|].
    unfold Timer.due; simpl. by rewrite Hp.
  - destruct Hst as [Hp ?]. rewrite elapse1_nothing_due; [by apply inv_later|].
    unfold Timer.due; simpl. by rewrite Hp.
Qed.

Lemma inv_elapse ms w : inv w → inv (elapse ms w).
Proof.
  intros Hinv. induction ms as [|ms IH] using N.peano_ind; [done|].
  rewrite elapse_succ. by apply inv_elapse1.
Qed.

(** Every reachable world satisfies the invariant. *)
Lemma reachable_inv w : reachable w → inv w.
Proof.
  induction 1; eauto using inv_boot, inv_start, inv_pause, inv_stop, inv_elapse.
Qed.

(** In a status other than [playing] no tick is pending. *)
Lemma not_playing_idle w :
  inv w → getStatus w ≠ playing → Timer.pending (clock w) = [].
Proof.
  intros [_ Hst]. unfold getStatus.
  destruct (_status (dyn w)); intros Hs; try done; by destruct Hst.
Qed.

(** *** Playback, tick by tick *)

Lemma same_setup_refl w : same_setup w w.
Proof. by repeat split. Qed.


(** One interval after a tick was scheduled, the following frame is applied
    and the next tick scheduled. *)
Lemma elapse_interval_next w f :
  just_scheduled w →
  frames (dyn w) !! S (currentFrameIndex (dyn w)) = Some f →
  let w' := elapse (Npos (_interval (dyn w))) w in
  just_scheduled w' ∧ same_setup w w' ∧
  currentFrameIndex (dyn w') = S (currentFrameIndex (dyn w)) ∧
  wrapped (dyn w') = apply_frame f (wrapped (dyn w)).
Proof.
  intros (Hs & h & Ht & Hp) Hf w'. unfold w'.
  rewrite (elapse_until_due w h _ Hp). unfold tick; simpl. rewrite Hf.
  unfold schedule; simpl. repeat split; try done.
  by eexists.
Qed.

(** One interval after a tick was scheduled on the last frame, playback has
    ended: nothing is pending, nothing was rendered or unrendered. *)
Lemma elapse_interval_end w :
  just_scheduled w →
  frames (dyn w) !! S (currentFrameIndex (dyn w)) = None →
  let w' := elapse (Npos (_interval (dyn w))) w in
  getStatus w' = ended ∧ Timer.pending (clock w') = [] ∧ same_setup w w' ∧
  currentFrameIndex (dyn w') = currentFrameIndex (dyn w) ∧
  wrapped (dyn w') = wrapped (dyn w).
Proof.
  intros (Hs & h & Ht & Hp) Hf w'. unfold w'.
  rewrite (elapse_until_due w h _ Hp). unfold tick; simpl. rewrite Hf.
  by repeat split.
Qed.



(** A property of the engine that the clock does not bear on and that a
    tick preserves is preserved by the passing of time. *)
Lemma elapse_preserves (Q : world P → Prop) :
  (∀ w clk, Q w → Q {| dyn := dyn w; clock := clk |}) →
  (∀ w, Q w → Q (tick w)) →
  ∀ ms w, Q w → Q (elapse ms w).
Proof.
  intros Hclk Htick.
  assert (Hfire : ∀ hs w, Q w → Q (foldl fire w hs)).
  { induction hs as [|h hs IH]; intros w Hw; [done|]. simpl. apply IH.
    unfold fire. destruct (Timer.is_pending h (clock w)); [|done].
    by apply Htick, Hclk. }
  intros ms w Hw. induction ms as [|ms IH] using N.peano_ind; [done|].
  rewrite elapse_succ. unfold elapse1. by apply Hfire, Hclk.
Qed.

(** A world that was stopped and is started has just scheduled its first
    tick, with frame 0 applied. *)
Lemma start_from_stopped w f :
  getStatus w = stopped →
  Timer.pending (clock w) = [] →
  frames (dyn w) !! 0 = Some f →
  just_scheduled (start w) ∧
  frames (dyn (start w)) = frames (dyn w) ∧
  _interval (dyn (start w)) = _interval (dyn w) ∧
  currentFrameIndex (dyn (start w)) = 0 ∧
  wrapped (dyn (start w)) = apply_frame f (wrapped (dyn w)) ∧
  initial (dyn (start w)) = Some (getPreviousState (wrapped (dyn w))).
Proof.
  unfold getStatus, start. intros -> Hp ->. unfold schedule; simpl.
  rewrite Hp. repeat split. by eexists.
Qed.

(** A paused world that is started has just scheduled its next tick and is
    otherwise as it was. *)
Lemma start_from_paused w :
  getStatus w = paused →
  Timer.pending (clock w) = [] →
  just_scheduled (start w) ∧ same_setup w (start w) ∧
  currentFrameIndex (dyn (start w)) = currentFrameIndex (dyn w) ∧
  wrapped (dyn (start w)) = wrapped (dyn w).
Proof.
  unfold getStatus, start. intros -> Hp. unfold schedule; simpl.
  rewrite Hp. repeat split. by eexists.
Qed.

Lemma just_scheduled_pending w : just_scheduled w → pending_ticks w = 1.
Proof. intros (_ & h & _ & Hp). unfold pending_ticks. by rewrite Hp. Qed.

Lemma frame_0 w : inv w → is_Some (frames (dyn w) !! 0).
Proof. intros [Hi _]. apply lookup_lt_is_Some_2. lia. Qed.


(** C3: [pause()] while playing cancels the pending tick and sets the status
    to [paused]; the wrapped projection is left as it is, and however much
    time then passes, the engine (status, cursor, wrapped projection with
    its entities) stays as [pause()] left it; a later [start()] sets the
    status back to [playing] with one tick pending. *)
Theorem pause_freezes w ms :
  reachable w →
  getStatus w = playing →
  let w' := pause w in
  getStatus w' = paused ∧
  pending_ticks w' = 0 ∧
  wrapped (dyn w') = wrapped (dyn w) ∧
  currentFrameIndex (dyn w') = currentFrameIndex (dyn w) ∧
  dyn (elapse ms w') = dyn w' ∧
  pending_ticks (elapse ms w') = 0 ∧
  getStatus (start (elapse ms w')) = playing ∧
  pending_ticks (start (elapse ms w')) = 1.
Proof.
  intros Hr Hs w'.
  assert (Hinv : inv w') by by apply inv_pause, reachable_inv.
  assert (Hst : getStatus w' = paused).
  { unfold w', pause, getStatus in *. by rewrite Hs. }
  assert (Hp : Timer.pending (clock w') = []).
  { apply not_playing_idle; [done | by rewrite Hst]. }
  assert (Hdyn : dyn w' = {| wrapped := wrapped (dyn w);
                             frames := frames (dyn w);
                             initial := initial (dyn w);
                             _status := paused;
                             currentFrameIndex := currentFrameIndex (dyn w);
                             _timer := None;
                             _interval := _interval (dyn w) |}).
  { unfold w', pause, getStatus in *. by rewrite Hs. }
  rewrite (elapse_idle ms w' Hp).
  destruct (start_from_paused (later ms w')) as (Hjs & _); [done | done |].
  repeat split; try done.
  - unfold pending_ticks. by rewrite Hp.
  - by rewrite Hdyn.
  - by rewrite Hdyn.
  - unfold pending_ticks. simpl. by rewrite Hp.
  - apply Hjs.
  - by apply just_scheduled_pending.
Qed.

(** C6: [start()] does nothing while the status is [playing] or [ended];
    calling it twice in a row is the same as calling it once; and in every
    reachable world at most one tick is pending (exactly one while playing,
    none otherwise). *)
Theorem start_idempotent w :
  reachable w →
  (getStatus w = playing ∨ getStatus w = ended → start w = w) ∧
  start (start w) = start w ∧
  pending_ticks w ≤ 1 ∧
  pending_ticks (start (start w)) ≤ 1 ∧
  (pending_ticks w = 1 ↔ getStatus w = playing).
Proof.
  intros Hr. pose proof (reachable_inv w Hr) as Hinv.
  assert (Hnoop : ∀ v : world P,
             getStatus v = playing ∨ getStatus v = ended → start v = v).
  { intros v. unfold getStatus, start. by intros [-> | ->]. }
  assert (Hcount : ∀ v : world P, inv v →
             pending_ticks v ≤ 1 ∧ (pending_ticks v = 1 ↔ getStatus v = playing)).
  { intros v [_ Hst]. unfold pending_ticks, getStatus.
    destruct (_status (dyn v)).
    - rewrite Hst. simpl. split; [lia | split; done].
    - destruct Hst as (h & due & _ & -> & _). simpl. split; [lia | done].
    - destruct Hst as [-> _]. simpl. split; [lia | split; done].
    - destruct Hst as [-> _]. simpl. split; [lia | split; done]. }
  assert (Htwice : start (start w) = start w).
  { destruct (getStatus w) eqn:Hs.
    - destruct (frame_0 w Hinv) as [f Hf].
      apply Hnoop. left.
      destruct (start_from_stopped w f Hs) as ((Hpl & _) & _); try done.
      by apply not_playing_idle; [|rewrite Hs].
    - by rewrite !(Hnoop w) by by left.
    - apply Hnoop. left.
      destruct (start_from_paused w Hs) as ((Hpl & _) & _); try done.
      by apply not_playing_idle; [|rewrite Hs].
    - by rewrite !(Hnoop w) by by right. }
  split; [exact (Hnoop w)|]. split; [exact Htwice|].
  split; [apply Hcount, Hinv|].
  split; [|apply Hcount, Hinv].
  rewrite Htwice. by apply Hcount, inv_start.
Qed.

End Engine.

End EngineSpec.

(** ** The mocked projection *)

Module MockSpec.

Import MockProjection.

Implicit Types (p : t) (id : string).

Lemma keys_NoDup {A} (o : gmap string A) : NoDup (Js.keys o).
Proof. apply NoDup_fst_map_to_list. Qed.

Lemma elem_of_keys {A} (o : gmap string A) id : id ∈ Js.keys o ↔ is_Some (o !! id).
Proof.
  unfold Js.keys. rewrite list_elem_of_fmap. split.
  - intros ([k a] & -> & Hin). apply elem_of_map_to_list in Hin. by eexists.
  - intros [a Ha]. exists (id, a). split; [done|]. by apply elem_of_map_to_list.
Qed.

(** The loop of the mocked [render], over any list of distinct keys. *)
Lemma render_loop (l : list string) : ∀ p,
  NoDup l →
  let q := foldl render_entity p l in
  _values q = _values p ∧
  (∀ id, _entities q !! id =
           if decide (id ∈ l)
           then (fun _ => {| mockedValue := Js.get (_values p) id |}) <$> _entities p !! id
           else _entities p !! id) ∧
  (∀ id, _effects q !! id =
           if decide (id ∈ l)
           then match _entities p !! id with
                | Some e => Some {| oldValue := mockedValue e;
                                    newValue := Js.get (_values p) id |}
                | None => _effects p !! id
                end
           else _effects p !! id).
Proof.
  induction l as [|a l IH]; intros p Hnd q.
  - subst q; simpl. repeat split; intros id; by rewrite decide_False by apply not_elem_of_nil.
  - apply NoDup_cons in Hnd as [Ha Hnd].
    destruct (IH (render_entity p a) Hnd) as (Hv & He & Hf).
    assert (Hv1 : _values (render_entity p a) = _values p).
    { unfold render_entity. by destruct (_entities p !! a). }
    subst q; simpl. split; [by rewrite Hv|]. split; intros id.
    + rewrite He, Hv1. destruct (decide (id = a)) as [->|Hne].
      * rewrite decide_False, decide_True by (done || apply elem_of_cons; by left).
        unfold render_entity. destruct (_entities p !! a) as [e|] eqn:Hpa; simpl.
        -- by rewrite lookup_insert_eq.
        -- by rewrite Hpa.
      * assert (Hsame : _entities (render_entity p a) !! id = _entities p !! id).
        { unfold render_entity. destruct (_entities p !! a); simpl;
            by rewrite ?lookup_insert_ne. }
        rewrite Hsame. destruct (decide (id ∈ l)).
        -- by rewrite decide_True by (apply elem_of_cons; by right).
        -- by rewrite decide_False by by apply not_elem_of_cons.
    + rewrite Hf, Hv1. destruct (decide (id = a)) as [->|Hne].
      * rewrite decide_False, decide_True by (done || apply elem_of_cons; by left).
        unfold render_entity. destruct (_entities p !! a) as [e|] eqn:Hpa; simpl.
        -- by rewrite lookup_insert_eq.
        -- done.
      * assert (Hsame : _entities (render_entity p a) !! id = _entities p !! id).
        { unfold render_entity. destruct (_entities p !! a); simpl;
            by rewrite ?lookup_insert_ne. }
        assert (Hsame' : _effects (render_entity p a) !! id = _effects p !! id).
        { unfold render_entity. destruct (_entities p !! a); simpl;
            by rewrite ?lookup_insert_ne. }
        rewrite Hsame, Hsame'. destruct (decide (id ∈ l)).
        -- by rewrite decide_True by (apply elem_of_cons; by right).
        -- by rewrite decide_False by by apply not_elem_of_cons.
Qed.

Lemma render_values p : _values (render p) = _values p.
Proof. apply (render_loop _ p (keys_NoDup _)). Qed.

(** After [render] every entity shows the value [values] gives it. *)
Lemma render_entities p id :
  _entities (render p) !! id
  = (fun _ => {| mockedValue := Js.get (_values p) id |}) <$> _entities p !! id.
Proof.
  destruct (render_loop _ p (keys_NoDup (_entities p))) as (_ & He & _).
  unfold render. rewrite He. case_decide as Hin; [done|].
  rewrite elem_of_keys in Hin. destruct (_entities p !! id); [|done].
  by destruct Hin.
Qed.

(** After [render] every entity has an effect recorded, with the value shown
    before and the value shown now. *)
Lemma render_effects p id :
  _effects (render p) !! id
  = match _entities p !! id with
    | Some e => Some {| oldValue := mockedValue e; newValue := Js.get (_values p) id |}
    | None => _effects p !! id
    end.
Proof.
  destruct (render_loop _ p (keys_NoDup (_entities p))) as (_ & _ & Hf).
  unfold render. rewrite Hf. case_decide as Hin; [done|].
  rewrite elem_of_keys in Hin. destruct (_entities p !! id); [|done].
  by destruct Hin.
Qed.

(** The loop of the mocked [unrender], over any list of distinct keys. *)
Lemma unrender_loop (l : list string) : ∀ p,
  NoDup l →
  let q := foldl unrender_entity p l in
  _values q = _values p ∧
  (∀ id, _entities q !! id =
           if decide (id ∈ l)
           then (fun _ => {| mockedValue := Js.String id |}) <$> _entities p !! id
           else _entities p !! id) ∧
  (∀ id, _effects q !! id =
           if decide (id ∈ l)
           then match _entities p !! id with
                | Some _ => None
                | None => _effects p !! id
                end
           else _effects p !! id).
Proof.
  induction l as [|a l IH]; intros p Hnd q.
  - subst q; simpl. repeat split; intros id; by rewrite decide_False by apply not_elem_of_nil.
  - apply NoDup_cons in Hnd as [Ha Hnd].
    destruct (IH (unrender_entity p a) Hnd) as (Hv & He & Hf).
    assert (Hv1 : _values (unrender_entity p a) = _values p).
    { unfold unrender_entity. by destruct (_entities p !! a). }
    subst q; simpl. split; [by rewrite Hv|]. split; intros id.
    + rewrite He. destruct (decide (id = a)) as [->|Hne].
      * rewrite decide_False, decide_True by (done || apply elem_of_cons; by left).
        unfold unrender_entity. destruct (_entities p !! a) as [e|] eqn:Hpa; simpl.
        -- by rewrite lookup_insert_eq.
        -- by rewrite Hpa.
      * assert (Hsame : _entities (unrender_entity p a) !! id = _entities p !! id).
        { unfold unrender_entity. destruct (_entities p !! a); simpl;
            by rewrite ?lookup_insert_ne. }
        rewrite Hsame. destruct (decide (id ∈ l)).
        -- by rewrite decide_True by (apply elem_of_cons; by right).
        -- by rewrite decide_False by by apply not_elem_of_cons.
    + rewrite Hf. destruct (decide (id = a)) as [->|Hne].
      * rewrite decide_False, decide_True by (done || apply elem_of_cons; by left).
        unfold unrender_entity. destruct (_entities p !! a) as [e|] eqn:Hpa; simpl.
        -- by rewrite lookup_delete_eq.
        -- done.
      * assert (Hsame : _entities (unrender_entity p a) !! id = _entities p !! id).
        { unfold unrender_entity. destruct (_entities p !! a); simpl;
            by rewrite ?lookup_insert_ne. }
        assert (Hsame' : _effects (unrender_entity p a) !! id = _effects p !! id).
        { unfold unrender_entity. destruct (_entities p !! a); simpl;
            by rewrite ?lookup_delete_ne. }
        rewrite Hsame, Hsame'. destruct (decide (id ∈ l)).
        -- by rewrite decide_True by (apply elem_of_cons; by right).
        -- by rewrite decide_False by by apply not_elem_of_cons.
Qed.

Lemma unrender_values p : _values (unrender p) = _values p.
Proof. apply (unrender_loop _ p (keys_NoDup _)). Qed.

(** After [unrender] every entity shows its own id. *)
Lemma unrender_entities p id :
  _entities (unrender p) !! id
  = (fun _ => {| mockedValue := Js.String id |}) <$> _entities p !! id.
Proof.
  destruct (unrender_loop _ p (keys_NoDup (_entities p))) as (_ & He & _).
  unfold unrender. rewrite He. case_decide as Hin; [done|].
  rewrite elem_of_keys in Hin. destruct (_entities p !! id); [|done].
  by destruct Hin.
Qed.

(** After [unrender] no entity has an effect recorded. *)
Lemma unrender_effects p id :
  _effects (unrender p) !! id
  = match _entities p !! id with
    | Some _ => None
    | None => _effects p !! id
    end.
Proof.
  destruct (unrender_loop _ p (keys_NoDup (_entities p))) as (_ & _ & Hf).
  unfold unrender. rewrite Hf. case_decide as Hin; [done|].
  rewrite elem_of_keys in Hin. destruct (_entities p !! id); [|done].
  by destruct Hin.
Qed.

(** The mocked [getPreviousState] reads off what every entity shows. *)
Lemma getPreviousState_lookup p id :
  getPreviousState p !! id = mockedValue <$> _entities p !! id.
Proof.
  unfold getPreviousState.
  assert (Hloop : ∀ l (st : gmap string Js.value),
    foldl (fun state k =>
             match _entities p !! k with
             | Some e => <[k := mockedValue e]> state
             | None => state
             end) st l !! id
    = if decide (id ∈ l)
      then match _entities p !! id with
           | Some e => Some (mockedValue e)
           | None => st !! id
           end
      else st !! id).
  { induction l as [|a l IH]; intros st; cbn [foldl].
    - by rewrite decide_False by apply not_elem_of_nil.
    - rewrite IH. destruct (decide (id = a)) as [->|Hne].
      + rewrite (decide_True (P := a ∈ a :: l)) by (apply elem_of_cons; by left).
        destruct (_entities p !! a) as [e|] eqn:Hpa.
        * rewrite lookup_insert_eq. by case_decide.
        * by case_decide.
      + assert (Hst : (match _entities p !! a with
                       | Some e => <[a := mockedValue e]> st
                       | None => st
                       end) !! id = st !! id).
        { destruct (_entities p !! a); by rewrite ?lookup_insert_ne. }
        rewrite Hst. destruct (decide (id ∈ l)).
        * by rewrite decide_True by (apply elem_of_cons; by right).
        * by rewrite decide_False by by apply not_elem_of_cons. }
  rewrite Hloop, lookup_empty. case_decide as Hin.
  - by destruct (_entities p !! id).
  - rewrite elem_of_keys in Hin. destruct (_entities p !! id); [|done].
    by destruct Hin.
Qed.

(** Rendering a frame's values makes every entity show them. *)
Lemma reflects_render values p : reflects (render (setValues values p)) values.
Proof.
  intros id e. rewrite render_entities. simpl.
  destruct (_entities p !! id); [|done]. by intros [= <-].
Qed.

(** [render], [unrender] and [values] leave the set of entities alone. *)
Lemma render_keys p id :
  is_Some (_entities (render p) !! id) ↔ is_Some (_entities p !! id).
Proof. by rewrite render_entities, fmap_is_Some. Qed.

Lemma unrender_keys p id :
  is_Some (_entities (unrender p) !! id) ↔ is_Some (_entities p !! id).
Proof. by rewrite unrender_entities, fmap_is_Some. Qed.

End MockSpec.

(** ** The playback engine on the mocked projection *)

Module PlaybackSpec.

Import DynamicProjection MockProjection Suite MockedPlayback EngineSpec MockSpec.

Implicit Types (w : world MockProjection.t) (ms : N).

Lemma apply_frame_mock (f : Frame) (p : MockProjection.t) :
  apply_frame f p = MockProjection.render (MockProjection.setValues (values f) p).
Proof. reflexivity. Qed.

Lemma apply_frame_keys (f : Frame) (p : MockProjection.t) id :
  is_Some (_entities (apply_frame f p) !! id) ↔ is_Some (_entities p !! id).
Proof. by rewrite apply_frame_mock, render_keys. Qed.

(** After a frame is applied, every entity shows the frame's value and has
    that value recorded as its effect. *)
Lemma apply_frame_reflects (f : Frame) (p : MockProjection.t) :
  reflects (apply_frame f p) (values f) ∧
  (∀ id, is_Some (_entities (apply_frame f p) !! id) →
         newValue <$> _effects (apply_frame f p) !! id = Some (Js.get (values f) id)).
Proof.
  split; [apply reflects_render|].
  intros id Hid%apply_frame_keys. rewrite apply_frame_mock, render_effects. simpl.
  by destruct Hid as [e ->].
Qed.

Lemma snapshot_covers_tick w : snapshot_covers w → snapshot_covers (tick w).
Proof.
  intros Hw init. unfold tick.
  destruct (frames (dyn w) !! S (currentFrameIndex (dyn w))) as [f|]; simpl.
  - intros Hinit id. rewrite (Hw init Hinit id). symmetry. apply (apply_frame_keys f).
  - apply Hw.
Qed.

(** In every reachable world the snapshot covers exactly the entities. *)
Lemma reachable_snapshot_covers w : reachable w → snapshot_covers w.
Proof.
  induction 1 as [prj data itv d Hnew|w Hr IH|w Hr IH|w Hr IH|ms w Hr IH].
  - destruct data; [done|]. injection Hnew as <-. by intros init.
  - intros init. unfold start. destruct (_status (dyn w)); try apply IH.
    destruct (frames (dyn w) !! 0) as [f|]; [|apply IH]. simpl.
    intros [= <-] id. rewrite getPreviousState_lookup, fmap_is_Some.
    symmetry. apply (apply_frame_keys f).
  - intros init. unfold pause. destruct (_status (dyn w)); apply IH.
  - intros init. simpl. intros Hinit id. rewrite (IH init Hinit id), Hinit.
    symmetry. apply (unrender_keys (MockProjection.setValues init (wrapped (dyn w)))).
  - apply elapse_preserves; [done | apply snapshot_covers_tick | done].
Qed.










(** C5: [start()] while paused leaves the wrapped projection and the cursor
    as they are (the current frame is not rendered again), sets the status
    to [playing] and schedules one tick; nothing changes before that tick,
    and when it comes the following frame is applied and shown by every
    entity (playback ends instead if the paused frame was the last). *)
Theorem resume_continues w ms :
  reachable w →
  getStatus w = paused →
  let w' := start w in
  let I := Npos (_interval (dyn w)) in
  let i := currentFrameIndex (dyn w) in
  getStatus w' = playing ∧
  wrapped (dyn w') = wrapped (dyn w) ∧
  currentFrameIndex (dyn w') = i ∧
  pending_ticks w' = 1 ∧
  ((ms < I)%N → dyn (elapse ms w') = dyn w') ∧
  (∀ f, frames (dyn w) !! S i = Some f →
        getStatus (elapse I w') = playing ∧
        currentFrameIndex (dyn (elapse I w')) = S i ∧
        wrapped (dyn (elapse I w')) = apply_frame f (wrapped (dyn w)) ∧
        reflects (wrapped (dyn (elapse I w'))) (values f)) ∧
  (frames (dyn w) !! S i = None →
        getStatus (elapse I w') = ended ∧
        wrapped (dyn (elapse I w')) = wrapped (dyn w)).
Proof.
  intros Hr Hs w' I i.
  assert (Hp : Timer.pending (clock w) = []).
  { apply not_playing_idle; [by apply reachable_inv | by rewrite Hs]. }
  destruct (start_from_paused w Hs Hp) as (Hjs & (Hfs & Hitv & _) & Hi & Hw).
  fold w' in Hjs, Hfs, Hitv, Hi, Hw.
  split; [apply Hjs|]. split; [exact Hw|]. split; [exact Hi|].
  split; [by apply just_scheduled_pending|].
  split; [|split].
  - intros Hms. destruct Hjs as (_ & h & _ & Hpw).
    by rewrite (elapse_quiet ms w' h _ Hpw) by (rewrite Hitv; fold I; lia).
  - intros f Hf.
    destruct (elapse_interval_next w' f Hjs) as (Hjs1 & _ & Hi1 & Hw1).
    { by rewrite Hfs, Hi. }
    rewrite Hitv in *. fold I in Hjs1, Hi1, Hw1.
    split; [apply Hjs1|]. split; [by rewrite Hi1, Hi|].
    split; [by rewrite Hw1, Hw|].
    rewrite Hw1. apply apply_frame_reflects.
  - intros Hnone.
    destruct (elapse_interval_end w' Hjs) as (Hst & _ & _ & _ & Hw1).
    { by rewrite Hfs, Hi. }
    rewrite Hitv in *. fold I in Hst, Hw1.
    split; [exact Hst | by rewrite Hw1, Hw].
Qed.

(** The theorem on the suite's fixture: paused one tick after [start()],
    resumed 2000 units later; the next tick shows the third set of values. *)
Lemma resume_continues_witness :
  let w := elapse 2000 (pause (elapse 1000 (start dynPrj))) in
  getStatus (start w) = playing ∧
  wrapped (dyn (start w)) = wrapped (dyn w) ∧
  reflects (wrapped (dyn (elapse 1000 (start w)))) (values (frame 2 2 12 22 32 42)).
Proof.
  intros w.
  destruct (resume_continues w 0) as (Hst & Hw & _ & _ & _ & Hnext & _).
  - apply reach_elapse, reach_pause, reach_elapse, reach_start.
    by apply (reach_new mockedPrj data None).
  - by vm_compute.
  - split; [exact Hst|]. split; [exact Hw|].
    apply (Hnext (frame 2 2 12 22 32 42)). by vm_compute.
Defined.

(** C3 on the suite's fixture: paused one tick after [start()]; 2000 units
    later the engine is as [pause()] left it. *)
Lemma pause_freezes_witness :
  let w := elapse 1000 (start dynPrj) in
  getStatus (pause w) = paused ∧
  pending_ticks (pause w) = 0 ∧
  dyn (elapse 2000 (pause w)) = dyn (pause w).
Proof.
  intros w.
  destruct (EngineSpec.pause_freezes w 2000) as (Hst & Hp & _ & _ & Hdyn & _).
  - apply reach_elapse, reach_start. by apply (reach_new mockedPrj data None).
  - by vm_compute.
  - split; [exact Hst|]. split; [exact Hp | exact Hdyn].
Defined.

(** C6 on the suite's fixture: [start()] twice in a row. *)
Lemma start_idempotent_witness :
  start (start dynPrj) = start dynPrj ∧ pending_ticks (start (start dynPrj)) ≤ 1.
Proof.
  destruct (EngineSpec.start_idempotent dynPrj) as (_ & Htwice & _ & Hone & _).
  - by apply (reach_new mockedPrj data None).
  - split; [exact Htwice | exact Hone].
Defined.

(** *** The suite against the engine

    These assertions of the suite hold of the engine: the status and the
    snapshot of ['can be started'], the status of ['can be paused'], the
    status and the third set of values of ['can be resumed'], all of
    ['should end'], and the statuses and the ids shown at the end of
    ['can be stopped']. *)

Lemma suite_can_be_started :
  getStatus (start dynPrj) = playing ∧
  (fun id => initial (dyn (start dynPrj)) ≫= lookup id) <$> ids = numbers 0 1 2 3 4.
Proof. by vm_compute. Qed.

Lemma suite_can_be_paused :
  getStatus (pause (elapse 2000 (start dynPrj))) = paused.
Proof. by vm_compute. Qed.

Lemma suite_can_be_resumed :
  getStatus (start (elapse 2000 (pause (elapse 2000 (start dynPrj))))) = playing ∧
  mockedValues (elapse 1000 (start (elapse 2000 (pause (elapse 2000 (start dynPrj))))))
  = data2.
Proof. by vm_compute. Qed.

Lemma suite_should_end :
  getStatus (elapse 5000 (start dynPrj)) = ended ∧
  mockedValues (elapse 5000 (start dynPrj)) = data2.
Proof. by vm_compute. Qed.

Lemma suite_can_be_stopped :
  getStatus (elapse 1000 (start dynPrj)) = playing ∧
  getStatus (stop (elapse 1000 (start dynPrj))) = stopped ∧
  mockedValues (stop (elapse 1000 (start dynPrj))) = Some ∘ Js.String <$> ids.
Proof. by vm_compute. Qed.

(** These do not: the suite expects the first set of values one tick after
    [start()] and the second after two, where the engine, which renders
    frame 0 in [start()] and moves on at every tick, shows the second and
    the third. *)
Lemma suite_timing :
  mockedValues (start dynPrj) = data0 ∧
  mockedValues (elapse 1000 (start dynPrj)) = data1 ∧
  mockedValues (elapse 2000 (start dynPrj)) = data2 ∧
  mockedValues (elapse 3000 (start dynPrj)) = data2 ∧
  mockedValues (elapse 2000 (pause (elapse 2000 (start dynPrj)))) = data2.
Proof. by vm_compute. Qed.

End PlaybackSpec.

(** * Further properties of the code *)

(** ** VisualisationManager: the registry and the calls it makes *)

Module VisualisationManagerMore.

Import VisualisationManager VisualisationManagerCalls VisualisationManagerSpec.

Lemma registered_None (a : string) (m : t) :
  registered a m = None ↔ ∀ p, _projections m !! a ≠ Some (Obj p).
Proof.
  unfold registered. destruct (_projections m !! a) as [[|q]|]; split; try done.
  intros Hq. by destruct (Hq q).
Qed.

(** What an operation does to the registration of any artifact. *)
Lemma registered_run (o : op) (m : t) (a : string) :
  registered a (run o m)
  = match o with
    | OpAdd p =>
        if decide (a = ARTIFACT p)
        then match get a m with
             | Own Null | Inherited => None
             | _ => Some p
             end
        else registered a m
    | OpRemove b => if decide (a = b) then None else registered a m
    | OpRender _ | OpUnrender _ => registered a m
    end.
Proof.
  destruct o as [p|b|b|b]; simpl.
  - unfold add, registered. case_decide as Ha.
    + subst a. read_slot (ARTIFACT p) m; by rewrite ?lookup_insert_eq, ?Hq.
    + read_slot (ARTIFACT p) m; by rewrite ?lookup_insert_ne.
  - unfold remove, registered. case_decide as Ha.
    + subst a. read_slot b m; by rewrite ?lookup_insert_eq, ?Hq.
    + read_slot b m; by rewrite ?lookup_insert_ne.
  - unfold render. by read_slot b m.
  - unfold unrender. by read_slot b m.
Qed.

(** What an operation adds to the record of calls. *)
Lemma calls_run (o : op) (m : t) :
  calls (run o m)
  = calls m ++
    match o with
    | OpAdd p =>
        match get (ARTIFACT p) m with
        | Absent => []
        | Inherited | Own Null => [ConsoleDebug (ARTIFACT p)]
        | Own (Obj old) => [ConsoleDebug (ARTIFACT p); Unrender old]
        end
    | OpRemove b =>
        match registered b m with Some q => [Unrender q] | None => [] end
    | OpRender b =>
        match registered b m with Some q => [Render q] | None => [] end
    | OpUnrender b =>
        match registered b m with Some q => [Unrender q] | None => [] end
    end.
Proof.
  destruct o as [p|b|b|b]; simpl.
  - unfold add. read_slot (ARTIFACT p) m; by rewrite ?app_nil_r.
  - unfold remove, registered. read_slot b m; by rewrite ?app_nil_r.
  - unfold render, registered. read_slot b m; by rewrite ?app_nil_r.
  - unfold unrender, registered. read_slot b m; by rewrite ?app_nil_r.
Qed.

Lemma run_all_snoc (os : list op) (o : op) (m : t) :
  run_all (os ++ [o]) m = run o (run_all os m).
Proof. unfold run_all. by rewrite foldl_app. Qed.

(** X1: whatever sequence of [add], [remove], [render] and [unrender] calls a
    new manager has gone through, a projection is registered only under its
    own [ARTIFACT]. *)
Theorem registered_under_own_artifact (os : list op) (a : string) (p : projection) :
  registered a (run_all os new) = Some p → ARTIFACT p = a.
Proof.
  revert a p. induction os as [|o os IH] using rev_ind; intros a p.
  - done.
  - rewrite run_all_snoc, registered_run. destruct o as [q|b|b|b].
    + case_decide as Ha; [|apply IH]. subst a.
      destruct (get (ARTIFACT q) (run_all os new)) as [| |[|old]];
        by intros [= <-].
    + case_decide; [done | apply IH].
    + apply IH.
    + apply IH.
Qed.

(** The theorem after two projections were added and one removed. *)
Lemma registered_under_own_artifact_witness :
  let p := {| ident := 1; ARTIFACT := "color" |} in
  let q := {| ident := 2; ARTIFACT := "height" |} in
  registered "height" (run_all [OpAdd p; OpAdd q; OpRemove "color"] new) = Some q ∧
  ARTIFACT q = "height".
Proof.
  intros p q.
  assert (H : registered "height" (run_all [OpAdd p; OpAdd q; OpRemove "color"] new)
              = Some q) by reflexivity.
  split; [exact H|].
  exact (registered_under_own_artifact _ _ _ H).
Defined.

(** X2: when [add(p)] returns, [p] is the projection registered for its
    artifact, [render] and [unrender] of that artifact return and call
    [p.render()], [p.unrender()], and every other artifact keeps its
    registration; when [add(p)] throws, it throws a TypeError and no
    registration has changed. *)
Theorem add_then_render (p : projection) (m : t) :
  match fst (add p m) with
  | Js.Return _ =>
      let m' := snd (add p m) in
      registered (ARTIFACT p) m' = Some p ∧
      render (ARTIFACT p) m' = (Js.Return tt, log [Render p] m') ∧
      unrender (ARTIFACT p) m' = (Js.Return tt, log [Unrender p] m') ∧
      ∀ a, a ≠ ARTIFACT p → registered a m' = registered a m
  | Js.Throw e =>
      e = Js.TypeError ∧ ∀ a, registered a (snd (add p m)) = registered a m
  end.
Proof.
  pose proof (registered_run (OpAdd p) m) as Hreg. simpl in Hreg.
  pose proof (registered_get (ARTIFACT p) m) as Hold.
  unfold add in *.
  destruct (get (ARTIFACT p) m) as [| |[|old]] eqn:Hp; simpl in *.
  - assert (H1 : registered (ARTIFACT p) (store (ARTIFACT p) (Obj p) m) = Some p).
    { rewrite Hreg. by rewrite decide_True, Hp. }
    split; [exact H1|]. apply registered_Some in H1.
    unfold render, unrender. rewrite (get_Own _ _ _ H1). repeat split.
    intros a Ha. by rewrite Hreg, decide_False.
  - split; [done|]. intros a. rewrite Hreg. case_decide as Ha; [|done].
    subst a. by rewrite Hp, Hold.
  - split; [done|]. intros a. rewrite Hreg. case_decide as Ha; [|done].
    subst a. by rewrite Hp, Hold.
  - assert (H1 : registered (ARTIFACT p)
                   (store (ARTIFACT p) (Obj p)
                      (log [ConsoleDebug (ARTIFACT p); Unrender old] m)) = Some p).
    { rewrite Hreg. by rewrite decide_True, Hp. }
    split; [exact H1|]. apply registered_Some in H1.
    unfold render, unrender. rewrite (get_Own _ _ _ H1). repeat split.
    intros a Ha. by rewrite Hreg, decide_False.
Qed.

(** X3: when [remove(artifact)] returns, no projection is registered for the
    artifact afterwards, so [render] and [unrender] of it throw a
    DeveloperError; a second [remove] returns no projection and changes
    nothing; every other artifact keeps its registration; and the only call
    made is [unrender()] on the projection that was registered, if there was
    one.  [remove] throws only for an artifact that names an inherited
    property with nothing stored under it: it then throws a TypeError and
    changes nothing, and [render] and [unrender] of the artifact throw a
    TypeError too. *)
Theorem remove_then (a : string) (m : t) :
  let m' := snd (remove a m) in
  match fst (remove a m) with
  | Js.Return r =>
      r = _projections m !! a ∧
      registered a m' = None ∧
      (∃ msg, fst (render a m') = Js.Throw (Js.DeveloperError msg a)) ∧
      (∃ msg, fst (unrender a m') = Js.Throw (Js.DeveloperError msg a)) ∧
      snd (remove a m') = m' ∧
      (∀ p, fst (remove a m') ≠ Js.Return (Some (Obj p))) ∧
      (∀ b, b ≠ a → registered b m' = registered b m) ∧
      calls m' = calls m ++
                 match registered a m with Some p => [Unrender p] | None => [] end
  | Js.Throw e =>
      e = Js.TypeError ∧
      _projections m !! a = None ∧ Js.inherited a = true ∧
      m' = m ∧
      fst (render a m) = Js.Throw Js.TypeError ∧
      fst (unrender a m) = Js.Throw Js.TypeError
  end ∧
  (Js.inherited a = false → ∃ r, fst (remove a m) = Js.Return r).
Proof.
  intros m'. unfold m'. clear m'.
  assert (Hafter : ∀ m1, _projections m1 !! a = Some Null ∨
                         (_projections m1 !! a = None ∧ Js.inherited a = false) →
            registered a m1 = None ∧
            (∃ msg, fst (render a m1) = Js.Throw (Js.DeveloperError msg a)) ∧
            (∃ msg, fst (unrender a m1) = Js.Throw (Js.DeveloperError msg a)) ∧
            snd (remove a m1) = m1 ∧
            (∀ p, fst (remove a m1) ≠ Js.Return (Some (Obj p)))).
  { intros m1 Hm1. unfold registered, render, unrender, remove, get.
    destruct Hm1 as [->|[-> ->]]; simpl; repeat split; try done; by eexists. }
  assert (Hrm : remove a m
                = match _projections m !! a with
                  | Some (Obj q) =>
                      (Js.Return (Some (Obj q)), store a Null (log [Unrender q] m))
                  | Some Null => (Js.Return (Some Null), m)
                  | None => if Js.inherited a then (Js.Throw Js.TypeError, m)
                            else (Js.Return None, m)
                  end).
  { unfold remove. by read_slot a m. }
  split.
  - rewrite Hrm.
    destruct (_projections m !! a) as [[|q]|] eqn:Hq;
      [ | | destruct (Js.inherited a) eqn:Hinh ]; cbn [fst snd].
    + destruct (Hafter m (or_introl Hq)) as (H1 & H2 & H3 & H4 & H5).
      repeat split; try done. by rewrite H1, app_nil_r.
    + set (m1 := store a Null (log [Unrender q] m)).
      assert (Hm1 : _projections m1 !! a = Some Null)
        by (unfold m1; simpl; by rewrite lookup_insert_eq).
      destruct (Hafter m1 (or_introl Hm1)) as (H1 & H2 & H3 & H4 & H5).
      repeat split; try done.
      * intros b Hb. unfold registered, m1. simpl. by rewrite lookup_insert_ne.
      * unfold registered. by rewrite Hq.
    + unfold render, unrender, get. by rewrite Hq, Hinh.
    + destruct (Hafter m (or_intror (conj Hq eq_refl))) as (H1 & H2 & H3 & H4 & H5).
      repeat split; try done. by rewrite H1, app_nil_r.
  - intros Hinh. rewrite Hrm, Hinh.
    destruct (_projections m !! a) as [[|q]|]; by eexists.
Qed.

(** The projections called are among those added: the invariant. *)
Lemma called_were_added (os : list op) :
  (∀ a p, registered a (run_all os new) = Some p → OpAdd p ∈ os) ∧
  (∀ p, called p (calls (run_all os new)) → OpAdd p ∈ os).
Proof.
  induction os as [|o os [IHr IHc]] using rev_ind.
  - split; [done|]. intros p [H|H]; by apply elem_of_nil in H.
  - assert (Hr : ∀ a p, registered a (run_all (os ++ [o]) new) = Some p
                        → OpAdd p ∈ os ++ [o]).
    { intros a p. rewrite run_all_snoc, registered_run.
      rewrite elem_of_app, list_elem_of_singleton. destruct o as [q|b|b|b].
      - case_decide; [|by left; eapply IHr].
        destruct (get a (run_all os new)) as [| |[|old]];
          try done; by intros [= <-]; right.
      - case_decide; [done | by left; eapply IHr].
      - by left; eapply IHr.
      - by left; eapply IHr. }
    split; [exact Hr|].
    intros p. rewrite run_all_snoc, calls_run. unfold called.
    rewrite !elem_of_app. intros Hp.
    assert (Hold : called p (calls (run_all os new)) ∨
                   ∃ a, registered a (run_all os new) = Some p).
    { destruct Hp as [[H|H]|[H|H]]; try (by left; left); try (by left; right);
        right; destruct o as [q|b|b|b].
      all: try (destruct (registered b (run_all os new)) as [q'|] eqn:Hq;
                [|by apply elem_of_nil in H];
                apply list_elem_of_singleton in H; injection H as <-; by exists b).
      all: try (destruct (registered b (run_all os new)) as [q'|] eqn:Hq;
                [|by apply elem_of_nil in H];
                by apply list_elem_of_singleton in H).
      - destruct (get (ARTIFACT q) (run_all os new)) as [| |[|old]] eqn:Hq.
        + by apply elem_of_nil in H.
        + by apply list_elem_of_singleton in H.
        + by apply list_elem_of_singleton in H.
        + apply elem_of_cons in H as [H|H]; [done|].
          by apply list_elem_of_singleton in H.
      - destruct (get (ARTIFACT q) (run_all os new)) as [| |[|old]] eqn:Hq.
        + by apply elem_of_nil in H.
        + by apply list_elem_of_singleton in H.
        + by apply list_elem_of_singleton in H.
        + apply elem_of_cons in H as [H|H]; [done|].
          apply list_elem_of_singleton in H. injection H as <-.
          exists (ARTIFACT q). apply registered_Some.
          unfold get in Hq. destruct (_projections (run_all os new) !! ARTIFACT q);
            [congruence|]. by destruct (Js.inherited (ARTIFACT q)). }
    left. destruct Hold as [Hc|[a Ha]]; [by apply IHc | by eapply IHr].
Qed.

(** X4: a manager never calls [render()] or [unrender()] on a projection that
    was not handed to it: whatever sequence of calls a new manager has gone
    through, every projection in its record of calls was added by an
    [add] of that sequence. *)
Theorem only_added_are_called (os : list op) (p : projection) :
  called p (calls (run_all os new)) → OpAdd p ∈ os.
Proof. apply called_were_added. Qed.

(** The theorem on a sequence that replaces a projection. *)
Lemma only_added_are_called_witness :
  let p := {| ident := 1; ARTIFACT := "color" |} in
  let q := {| ident := 2; ARTIFACT := "color" |} in
  called p (calls (run_all [OpAdd p; OpAdd q] new)) ∧
  OpAdd p ∈ [OpAdd p; OpAdd q].
Proof.
  intros p q.
  assert (H : called p (calls (run_all [OpAdd p; OpAdd q] new))).
  { right. simpl. apply elem_of_cons. right. apply elem_of_cons. by left. }
  split; [exact H|].
  exact (only_added_are_called _ _ H).
Defined.

End VisualisationManagerMore.

(** ** GeoPoint: the constructor and the conversions *)

Module GeoPointMore.

Import GeoPoint GeoPointStatics GeoPointSpec.

(** A point whose fields are plain is what the constructor makes of them. *)
Lemma init_fields (p : t) :
  Js.plain (latitude p) = true →
  Js.plain (longitude p) = true →
  Js.plain (elevation p) = true →
  _init (Some (latitude p)) (Some (longitude p)) (Some (elevation p)) = p.
Proof.
  intros H1 H2 H3. unfold _init.
  rewrite (parse_or_zero_plain _ H1), (parse_or_zero_plain _ H2),
    (parse_or_zero_plain _ H3).
  by destruct p.
Qed.

(** X5: the GeoPoint constructor stores a Number that is neither [NaN] nor
    [-0] unchanged and stores [0] for a missing argument; so building a point
    again from the latitude, longitude and elevation of a point the
    constructor made, as [GeoPoint.fromLatLngHeight] does, gives the same
    point, elevation included. *)
Theorem fromLatLngHeight_of_fields (a b c : option Js.number) (n : Js.number) :
  let p := _init a b c in
  fromLatLngHeight {| lat := Some (latitude p); lng := Some (longitude p);
                      height := Some (elevation p) |} = p
  ∧ (Js.plain n = true →
     fromLatLngHeight {| lat := Some n; lng := Some n; height := Some n |}
     = {| latitude := n; longitude := n; elevation := n |})
  ∧ fromLatLngHeight {| lat := None; lng := None; height := None |}
    = {| latitude := Js.zero; longitude := Js.zero; elevation := Js.zero |}.
Proof.
  intros p. split; [|split].
  - unfold fromLatLngHeight. cbn [lat lng height].
    apply (init_fields p); apply parse_or_zero_is_plain.
  - intros Hn. unfold fromLatLngHeight, _init. cbn [lat lng height].
    by rewrite (parse_or_zero_plain _ Hn).
  - reflexivity.
Qed.

Lemma fromVertex_toVertex (p : t) :
  fromVertex (Some (toVertex p))
  = _init (Some (latitude p)) (Some (longitude p)) (Some (latitude p)).
Proof. reflexivity. Qed.

(** X6: converting a GeoPoint to a Vertex and back is idempotent, and it
    gives the point back exactly when the point's latitude and longitude are
    neither [NaN] nor [-0] and its elevation equals its latitude. *)
Theorem vertex_round_trip (p : t) :
  let back q := fromVertex (Some (toVertex q)) in
  back (back p) = back p ∧
  (back p = p ↔
   Js.plain (latitude p) = true ∧ Js.plain (longitude p) = true ∧
   elevation p = latitude p).
Proof.
  intros back. unfold back. split.
  - rewrite (fromVertex_toVertex (fromVertex _)).
    set (q := fromVertex (Some (toVertex p))).
    exact (init_fields q (parse_or_zero_is_plain _) (parse_or_zero_is_plain _)
             (parse_or_zero_is_plain _)).
  - rewrite fromVertex_toVertex. split.
    + intros Hp.
      pose proof (f_equal latitude Hp) as Hlat.
      pose proof (f_equal longitude Hp) as Hlng.
      pose proof (f_equal elevation Hp) as Hel.
      cbn [_init latitude longitude elevation] in Hlat, Hlng, Hel.
      split; [|split].
      * rewrite <- Hlat. apply parse_or_zero_is_plain.
      * rewrite <- Hlng. apply parse_or_zero_is_plain.
      * congruence.
    + intros (Hlat & Hlng & He). unfold _init.
      rewrite (parse_or_zero_plain _ Hlat), (parse_or_zero_plain _ Hlng).
      destruct p; simpl in *. by rewrite He.
Qed.

(** X7: every GeoPoint that [WKT._verticesToGeoPoints] makes from a list of
    vertices (hence every point of [geoPointsFromWKT]) has its latitude as
    its elevation, whatever the [z] of the vertex; the list keeps its length
    and its order. *)
Theorem verticesToGeoPoints_elevation (vertices : list Vertex.t) :
  length (_verticesToGeoPoints vertices) = length vertices ∧
  (∀ i v, vertices !! i = Some v →
          _verticesToGeoPoints vertices !! i = Some (fromVertex (Some v))) ∧
  (∀ p, p ∈ _verticesToGeoPoints vertices → elevation p = latitude p).
Proof.
  unfold _verticesToGeoPoints. split; [by rewrite length_fmap|]. split.
  - intros i v Hv. by rewrite list_lookup_fmap, Hv.
  - intros p (v & -> & _)%list_elem_of_fmap. reflexivity.
Qed.

End GeoPointMore.

(** ** The mocked projection: render, unrender and getPreviousState together *)

Module MockMore.

Import MockProjection MockSpec.

Implicit Types (p : t) (id : string).

Lemma t_eq p q :
  _entities p = _entities q → _values p = _values q → _effects p = _effects q →
  p = q.
Proof. destruct p, q; simpl. by intros -> -> ->. Qed.

(** X8: after the mocked [render], every entity shows the value [values]
    holds for its id ([undefined] when it holds none), the mocked
    [getPreviousState] reads exactly these values back, and for every entity
    an effect is recorded with the value shown before and the value shown
    now; [values], the set of entities and the effects of ids that are no
    entity are as before. *)
Theorem mock_render_shows_values p id :
  shown (render p) id
  = (fun _ => Js.get (_values p) id) <$> shown p id ∧
  getPreviousState (render p) !! id
  = (fun _ => Js.get (_values p) id) <$> shown p id ∧
  _effects (render p) !! id
  = match shown p id with
    | Some old => Some {| oldValue := old; newValue := Js.get (_values p) id |}
    | None => _effects p !! id
    end ∧
  _values (render p) = _values p.
Proof.
  unfold shown.
  rewrite getPreviousState_lookup, render_entities, render_effects, render_values.
  by destruct (_entities p !! id).
Qed.

(** X9: after the mocked [unrender], whatever was rendered before, every
    entity shows its own id and has no effect recorded; [values] and the
    effects of ids that are no entity are as before; and unrendering twice
    is the same as unrendering once, in particular it is safe when nothing
    was rendered. *)
Theorem mock_unrender_resets p id :
  shown (unrender p) id = (fun _ => Js.String id) <$> shown p id ∧
  _effects (unrender p) !! id
  = match shown p id with
    | Some _ => None
    | None => _effects p !! id
    end ∧
  _values (unrender p) = _values p ∧
  shown (unrender (render p)) id = shown (unrender p) id ∧
  unrender (unrender p) = unrender p.
Proof.
  unfold shown. split; [|split; [|split; [|split]]].
  - rewrite unrender_entities. by destruct (_entities p !! id).
  - rewrite unrender_effects. by destruct (_entities p !! id).
  - apply unrender_values.
  - rewrite !unrender_entities, render_entities.
    by destruct (_entities p !! id).
  - apply t_eq.
    + apply map_eq. intros k. rewrite !unrender_entities.
      by destruct (_entities p !! k).
    + by rewrite !unrender_values.
    + apply map_eq. intros k. rewrite !unrender_effects, unrender_entities.
      by destruct (_entities p !! k).
Qed.

(** X10: rendering a second time shows the same values, but the effect then
    records the rendered value as the old one: the value an entity showed
    before the first [render] is no longer in the effects. *)
Theorem mock_render_twice p id (e : Feature) :
  _entities p !! id = Some e →
  shown (render (render p)) id = shown (render p) id ∧
  _effects (render p) !! id
  = Some {| oldValue := mockedValue e; newValue := Js.get (_values p) id |} ∧
  _effects (render (render p)) !! id
  = Some {| oldValue := Js.get (_values p) id; newValue := Js.get (_values p) id |}.
Proof.
  intros He. unfold shown.
  rewrite !render_effects, !render_entities, !render_values, He. by simpl.
Qed.

(** The theorem on the suite's projection with the first set of values. *)
Lemma mock_render_twice_witness :
  let p := setValues (DynamicProjection.values (Suite.frame 0 0 10 20 30 40)) Suite.mockedPrj in
  _effects (render p) !! "1"
  = Some {| oldValue := Js.int 1; newValue := Js.int 10 |} ∧
  _effects (render (render p)) !! "1"
  = Some {| oldValue := Js.int 10; newValue := Js.int 10 |}.
Proof.
  intros p.
  destruct (mock_render_twice p "1" (Suite.feature 1)) as (_ & H1 & H2);
    [reflexivity|].
  split; [exact H1 | exact H2].
Defined.

End MockMore.

(** ** GeoEntity: dirty tracking *)

Module GeoEntityDirty.

Import GeoEntity.

Implicit Types (this : t) (c : string).

Lemma flagged_true c this : flagged c this = true ↔ _dirty this !! c = Some true.
Proof.
  unfold flagged. destruct (_dirty this !! c) as [[]|]; simpl; split; congruence.
Qed.

Lemma flagged_invalidate c this : flagged c (_invalidateGeometry this) = flagged c this.
Proof. reflexivity. Qed.

Lemma dirty_setDirty (v : Js.value) this :
  _dirty (setDirty v this)
  = match v with
    | Js.String c => if flagged c this then _dirty this else <[c := true]> (_dirty this)
    | _ => _dirty this
    end ∧
  _dirtyCount (setDirty v this)
  = match v with
    | Js.String c => if flagged c this then _dirtyCount this else (_dirtyCount this + 1)%Z
    | _ => _dirtyCount this
    end.
Proof.
  unfold setDirty.
  set (e := match v with Js.String c => _setDirty c this | _ => this end).
  assert (He : _dirty e
               = match v with
                 | Js.String c =>
                     if flagged c this then _dirty this else <[c := true]> (_dirty this)
                 | _ => _dirty this
                 end ∧
               _dirtyCount e
               = match v with
                 | Js.String c =>
                     if flagged c this then _dirtyCount this else (_dirtyCount this + 1)%Z
                 | _ => _dirtyCount this
                 end).
  { unfold e. destruct v as [|n|c]; try done.
    unfold _setDirty. by destruct (flagged c this). }
  by destruct (flagged "entity" e || flagged "vertices" e || flagged "model" e).
Qed.

Lemma counted_run this (o : op) : counted this → counted (run this o).
Proof.
  intros [Hall Hcount]. destruct o as [v|c|]; simpl.
  - destruct (dirty_setDirty v this) as [Hd Hc]. unfold counted. rewrite Hd, Hc.
    destruct v as [|n|c]; try done.
    destruct (flagged c this) eqn:Hf; [done|].
    assert (Hnone : _dirty this !! c = None).
    { destruct (_dirty this !! c) as [b|] eqn:Hb; [|done].
      rewrite (Hall c b Hb) in Hb. apply flagged_true in Hb. congruence. }
    split.
    + by apply map_Forall_insert_2.
    + rewrite map_size_insert_None by done. lia.
  - unfold setClean. destruct (flagged (default "undefined" c) this) eqn:Hf; [|done].
    apply flagged_true in Hf. split; simpl.
    + by apply map_Forall_delete.
    + rewrite map_size_delete_Some by by eexists.
      assert (size (_dirty this) ≠ 0).
      { apply map_size_non_empty_iff. intros Hempty.
        by rewrite Hempty, lookup_empty in Hf. }
      lia.
  - split; simpl; [apply map_Forall_empty | by rewrite map_size_empty].
Qed.

Lemma counted_clean this : counted (clean this).
Proof. split; simpl; [apply map_Forall_empty | by rewrite map_size_empty]. Qed.

(** X11: from [clean()] on, whatever components are then marked dirty and
    clean, [_dirtyCount] is the number of components marked dirty; so
    [isDirty()] without a component is true exactly when some component is
    dirty, and [isRenderable()] exactly when none is. *)
Theorem dirty_count_is_exact (os : list op) this :
  let e := foldl run (clean this) os in
  _dirtyCount e = Z.of_nat (size (_dirty e)) ∧
  (isDirty None e = Some true ↔ ∃ c, isDirty (Some c) e = Some true) ∧
  (isRenderable e = true ↔ ∀ c, isDirty (Some c) e = None).
Proof.
  intros e.
  assert (He : counted e).
  { unfold e. generalize (counted_clean this). generalize (clean this).
    induction os as [|o os IH]; intros e0 He0; [done|].
    simpl. by apply IH, counted_run. }
  destruct He as [Hall Hcount]. split; [exact Hcount|].
  unfold isRenderable, isDirty. rewrite Hcount. split.
  - split.
    + intros [= Hpos%Z.ltb_lt].
      destruct (map_choose (_dirty e)) as (c & b & Hb).
      { apply map_size_non_empty_iff. lia. }
      exists c. by rewrite Hb, (Hall c b Hb).
    + intros [c Hc]. f_equal. apply Z.ltb_lt.
      assert (size (_dirty e) ≠ 0); [|lia].
      apply map_size_non_empty_iff. intros Hempty.
      by rewrite Hempty, lookup_empty in Hc.
  - rewrite negb_true_iff, Z.ltb_ge. split.
    + intros Hle c. assert (Hempty : _dirty e = ∅).
      { apply map_size_empty_iff. lia. }
      by rewrite Hempty, lookup_empty.
    + intros Hnone. apply map_empty in Hnone. rewrite Hnone, map_size_empty. lia.
Qed.

(** X12: [setDirty(c)] for a component name marks [c] dirty and no other
    component, and doing it twice is the same as once; [setClean(c)] then
    makes [isDirty(c)] undefined again, and when [c] was not dirty before,
    the flags and their count are back as they were. *)
Theorem setDirty_setClean c this :
  let e := setDirty (Js.String c) this in
  isDirty (Some c) e = Some true ∧
  (∀ c', c' ≠ c → isDirty (Some c') e = isDirty (Some c') this) ∧
  setDirty (Js.String c) e = e ∧
  isDirty (Some c) (setClean (Some c) e) = None ∧
  (isDirty (Some c) this = None →
   _dirty (setClean (Some c) e) = _dirty this ∧
   _dirtyCount (setClean (Some c) e) = _dirtyCount this).
Proof.
  intros e. destruct (dirty_setDirty (Js.String c) this) as [Hd Hc].
  fold e in Hd, Hc.
  assert (He : _dirty e !! c = Some true).
  { rewrite Hd. destruct (flagged c this) eqn:Hf.
    - by apply flagged_true.
    - by rewrite lookup_insert_eq. }
  assert (Hfe : flagged c e = true) by by apply flagged_true.
  split; [exact He|]. split; [|split; [|split]].
  - intros c' Hne. simpl. rewrite Hd.
    destruct (flagged c this); by rewrite ?lookup_insert_ne.
  - unfold setDirty at 1, _setDirty. rewrite Hfe.
    destruct (flagged "entity" e || flagged "vertices" e || flagged "model" e) eqn:Hg;
      [|done].
    unfold e, setDirty.
    set (e0 := _setDirty c this).
    change (flagged "entity" (setDirty (Js.String c) this)
            || flagged "vertices" (setDirty (Js.String c) this)
            || flagged "model" (setDirty (Js.String c) this) = true) in Hg.
    unfold setDirty in Hg. fold e0 in Hg.
    destruct (flagged "entity" e0 || flagged "vertices" e0 || flagged "model" e0) eqn:Hg0.
    + reflexivity.
    + congruence.
  - unfold setClean; simpl. rewrite Hfe. simpl. by rewrite lookup_delete_eq.
  - intros Hnone. simpl in Hnone. unfold setClean; simpl. rewrite Hfe. simpl.
    rewrite Hd, Hc.
    assert (Hf : flagged c this = false).
    { unfold flagged. by rewrite Hnone. }
    rewrite Hf. split; [by apply delete_insert_id | lia].
Qed.

(** X13: [setDirty] clears the cached centroid and area exactly when, once
    the component is marked, one of ["entity"], ["vertices"] and ["model"] is
    dirty, and otherwise leaves them alone: marking ["model"] always clears
    them, and while ["model"] is dirty marking anything does. *)
Theorem setDirty_invalidates_geometry (v : Js.value) this :
  let e := setDirty v this in
  let geometry := flagged "entity" e || flagged "vertices" e || flagged "model" e in
  (if geometry
   then _centroid e = None ∧ _area e = None
   else _centroid e = _centroid this ∧ _area e = _area this) ∧
  (v = Js.String "model" → geometry = true) ∧
  (flagged "model" this = true → geometry = true).
Proof.
  intros e geometry.
  set (e0 := match v with Js.String c => _setDirty c this | _ => this end).
  assert (He : e = if flagged "entity" e0 || flagged "vertices" e0 || flagged "model" e0
                   then _invalidateGeometry e0 else e0) by reflexivity.
  assert (Hflag : ∀ c, flagged c e = flagged c e0).
  { intros c. rewrite He.
    by destruct (flagged "entity" e0 || flagged "vertices" e0 || flagged "model" e0). }
  assert (Hcache : _centroid e0 = _centroid this ∧ _area e0 = _area this).
  { unfold e0. destruct v as [|n|c]; try done.
    unfold _setDirty. by destruct (flagged c this). }
  assert (Hg : geometry
               = flagged "entity" e0 || flagged "vertices" e0 || flagged "model" e0).
  { unfold geometry. by rewrite !Hflag. }
  split; [|split].
  - rewrite Hg, He.
    by destruct (flagged "entity" e0 || flagged "vertices" e0 || flagged "model" e0).
  - intros ->. rewrite Hg.
    assert (flagged "model" e0 = true) as ->; [|by rewrite !orb_true_r].
    unfold e0, _setDirty. destruct (flagged "model" this) eqn:Hm; [done|].
    apply flagged_true. simpl. by rewrite lookup_insert_eq.
  - intros Hm. rewrite Hg.
    assert (flagged "model" e0 = true) as ->; [|by rewrite !orb_true_r].
    unfold e0. destruct v as [|n|c]; try done.
    unfold _setDirty. destruct (flagged c this) eqn:Hc; [done|].
    apply flagged_true in Hm. apply flagged_true. simpl.
    destruct (decide (c = "model")) as [->|Hne].
    + by rewrite lookup_insert_eq.
    + by rewrite lookup_insert_ne.
Qed.

(** X14: [setClean()] without a component does not clean the entity: it
    looks up the component named ["undefined"], so every other component
    stays as it is, and an entity with such a dirty component is still dirty
    afterwards; only [clean()] clears them all. *)
Theorem setClean_without_component c this :
  counted this →
  c ≠ "undefined" →
  isDirty (Some c) this = Some true →
  isDirty (Some c) (setClean None this) = Some true ∧
  isDirty None (setClean None this) = Some true ∧
  isRenderable (setClean None this) = false ∧
  isDirty (Some c) (clean this) = None ∧
  isRenderable (clean this) = true.
Proof.
  intros Hcounted Hne Hc.
  assert (Hkeep : isDirty (Some c) (setClean None this) = Some true).
  { unfold setClean; simpl. destruct (flagged "undefined" this); [|done].
    simpl. by rewrite lookup_delete_ne. }
  pose proof (counted_run this (OpSetClean None) Hcounted) as [_ Hcount].
  simpl in Hcount.
  assert (Hpos : (0 < _dirtyCount (setClean None this))%Z).
  { rewrite Hcount.
    assert (size (_dirty (setClean None this)) ≠ 0); [|lia].
    apply map_size_non_empty_iff. intros Hempty. simpl in Hkeep.
    by rewrite Hempty, lookup_empty in Hkeep. }
  split; [exact Hkeep|]. unfold isRenderable. simpl.
  apply Z.ltb_lt in Hpos. rewrite Hpos. by rewrite lookup_empty.
Qed.

(** The theorem on an entity whose style and model are dirty. *)
Lemma setClean_without_component_witness :
  let e := setDirty (Js.String "model")
             (setDirty (Js.String "style")
                (clean {| _dirty := ∅; _dirtyCount := 0;
                          _centroid := None; _area := None |})) in
  isDirty (Some "style") (setClean None e) = Some true ∧
  isDirty None (setClean None e) = Some true.
Proof.
  intros e.
  destruct (setClean_without_component "style" e) as (H1 & H2 & _).
  - exact (counted_run _ (OpSetDirty (Js.String "model"))
             (counted_run _ (OpSetDirty (Js.String "style")) (counted_clean _))).
  - discriminate.
  - reflexivity.
  - split; [exact H1 | exact H2].
Defined.

End GeoEntityDirty.

(** ** EntityManager: the registry of entities *)

Module EntityManagerSpec.

Import EntityManager.

Implicit Types (m : t) (id : string) (e : entity).


(** The loop of [setGeoEntityTypes], over any list of keys. *)
Lemma setGeoEntityTypes_loop (cs : gmap string constructor) (keys : list string) :
  ∀ (types : gmap string constructor) (key : string),
  foldl (setGeoEntityType cs) types keys !! key
  = match types !! key with
    | Some old => Some (if decide (key ∈ keys) then default old (cs !! key) else old)
    | None => None
    end.
Proof.
  induction keys as [|k keys IH]; intros types key.
  - simpl foldl. destruct (types !! key); [|done].
    by rewrite decide_False by apply not_elem_of_nil.
  - simpl foldl. rewrite IH. unfold setGeoEntityType.
    destruct (decide (key = k)) as [->|Hne].
    + assert (Hin : k ∈ k :: keys) by (apply elem_of_cons; by left).
      destruct (cs !! k) as [c|] eqn:Hc, (types !! k) as [old|] eqn:Hold;
        rewrite ?lookup_insert_eq, ?Hold; try done; f_equal; simpl;
        rewrite (decide_True (P := k ∈ k :: keys)) by exact Hin;
        by case_decide.
    + assert (Hsame : (match cs !! k, types !! k with
                       | Some c, Some _ => <[k := c]> types
                       | _, _ => types
                       end) !! key = types !! key).
      { destruct (cs !! k), (types !! k); by rewrite ?lookup_insert_ne. }
      rewrite Hsame. destruct (types !! key) as [old|]; [|done]. f_equal.
      destruct (decide (key ∈ keys)) as [Hin|Hin].
      * by rewrite decide_True by (apply elem_of_cons; by right).
      * by rewrite decide_False by by apply not_elem_of_cons.
Qed.

(** X15: [add(id, entity)] under an id that is free returns [true], after
    which [getById(id)] returns the entity; under an id that is taken it
    returns [false] and the entity registered stays; in both cases every
    other id keeps its entity, and nothing is thrown. *)
Theorem add_then_getById id e m :
  let m' := snd (add id e m) in
  match _entities m !! id with
  | None => fst (add id e m) = true ∧ fst (getById id m') = Some e
  | Some old => fst (add id e m) = false ∧ fst (getById id m') = Some old
  end ∧
  (∀ id', id' ≠ id → fst (getById id' m') = fst (getById id' m)) ∧
  _entityTypes m' = _entityTypes m.
Proof.
  unfold add, getById. destruct (_entities m !! id) as [old|] eqn:Hid; simpl.
  - by rewrite Hid.
  - rewrite lookup_insert_eq. repeat split. intros id' Hne.
    by rewrite lookup_insert_ne.
Qed.

(** X16: [remove(id)] deletes the entry: afterwards [getById(id)] is
    undefined and the id can be added again; [cleanUp()] is called on the
    entity removed and on nothing else; every other id keeps its entity; and
    removing an id that is not registered changes nothing. *)
Theorem remove_then_add id e m :
  let m' := remove id m in
  fst (getById id m') = None ∧
  fst (add id e m') = true ∧
  fst (getById id (snd (add id e m'))) = Some e ∧
  (∀ id', id' ≠ id → fst (getById id' m') = fst (getById id' m)) ∧
  (∀ x, CleanUp x ∈ calls m' ↔ CleanUp x ∈ calls m ∨ _entities m !! id = Some x) ∧
  (_entities m !! id = None → m' = m).
Proof.
  intros m'.
  assert (Hgone : _entities m' !! id = None).
  { unfold m', remove. destruct (_entities m !! id) eqn:Hid; simpl;
      by rewrite ?lookup_delete_eq. }
  split; [exact Hgone|].
  unfold add. rewrite Hgone. simpl. rewrite lookup_insert_eq.
  split; [done|]. split; [done|]. split; [|split].
  - intros id' Hne. unfold m', remove.
    destruct (_entities m !! id); simpl; by rewrite ?lookup_delete_ne.
  - intros x. unfold m', remove. destruct (_entities m !! id) as [old|]; simpl.
    + rewrite elem_of_app, elem_of_cons, list_elem_of_singleton.
      split.
      * intros [H|[H|H]]; [by left | done | right; congruence].
      * intros [H|[= ->]]; [by left | by right; right].
    + split; [by left | by intros [H|H]].
  - intros Hnone. unfold m', remove. by rewrite Hnone.
Qed.


(** X18: [setGeoEntityTypes(constructors)] replaces the constructor of the
    entity types the manager already knows and ignores every other key; so
    after [initialise] a manager knows exactly ["Feature"], ["Polygon"] and
    ["Mesh"], as a new one does. *)
Theorem setGeoEntityTypes_known_only (cs : gmap string constructor) m (key : string) :
  _entityTypes (setGeoEntityTypes cs m) !! key
  = match _entityTypes m !! key with
    | Some old => Some (default old (cs !! key))
    | None => None
    end ∧
  (is_Some (_entityTypes (initialise (Some cs) new) !! key)
   ↔ key = "Feature" ∨ key = "Polygon" ∨ key = "Mesh").
Proof.
  assert (H : ∀ m0, _entityTypes (setGeoEntityTypes cs m0) !! key
              = match _entityTypes m0 !! key with
                | Some old => Some (default old (cs !! key))
                | None => None
                end).
  { intros m0. unfold setGeoEntityTypes; simpl. rewrite setGeoEntityTypes_loop.
    destruct (_entityTypes m0 !! key) as [old|]; [|done].
    case_decide as Hin; [done|].
    destruct (cs !! key) as [c|] eqn:Hc; [|done].
    destruct Hin. apply MockSpec.elem_of_keys. by eexists. }
  split; [apply H|].
  unfold initialise. rewrite H. unfold new; cbn [_entityTypes].
  destruct (decide (key = "Feature")) as [->|H1]; [by split; [left | eexists]|].
  destruct (decide (key = "Polygon")) as [->|H2]; [by split; [right; left | eexists]|].
  destruct (decide (key = "Mesh")) as [->|H3]; [by split; [right; right | eexists]|].
  rewrite !lookup_insert_ne by done. rewrite lookup_singleton_ne by done.
  split; [by intros [? ?] | by intros [?|[?|?]]].
Qed.

End EntityManagerSpec.

(** ** atlas/util/WKT: recognising WKT strings, swapping coordinates *)

Module WKTSpec.

Import WKT.

(** *** Strings *)

Lemma app_cons (a : Ascii.ascii) (s t : string) :
  String a s +:+ t = String a (s +:+ t).
Proof. reflexivity. Qed.

Lemma app_empty_r (s : string) : s +:+ "" = s.
Proof. induction s as [|a s IH]; [done|]. by rewrite app_cons, IH. Qed.

Lemma app_assoc' (s t u : string) : (s +:+ t) +:+ u = s +:+ (t +:+ u).
Proof. induction s as [|a s IH]; [done|]. by rewrite !app_cons, IH. Qed.

Lemma rev_app_acc (s : string) : ∀ acc, String.rev_app s acc = String.rev s +:+ acc.
Proof.
  unfold String.rev. induction s as [|a s IH]; intros acc; [done|].
  simpl. rewrite (IH (String a acc)), (IH (String a "")).
  by rewrite app_assoc'.
Qed.

Lemma rev_cons (a : Ascii.ascii) (s : string) :
  String.rev (String a s) = String.rev s +:+ String a "".
Proof. unfold String.rev at 1. simpl. apply rev_app_acc. Qed.

Lemma rev_append (s t : string) :
  String.rev (s +:+ t) = String.rev t +:+ String.rev s.
Proof.
  induction s as [|a s IH].
  - by rewrite app_empty_r.
  - by rewrite app_cons, !rev_cons, IH, app_assoc'.
Qed.

Lemma rev_rev (s : string) : String.rev (String.rev s) = s.
Proof.
  induction s as [|a s IH]; [done|].
  by rewrite rev_cons, rev_append, IH.
Qed.

(** [trim_start] takes white space off the front, and nothing else. *)
Lemma trim_start_split (s : string) :
  ∃ ws, s = ws +:+ JsLib.trim_start s ∧
        forallb JsLib.is_white_space (String.list_ascii_of_string ws) = true.
Proof.
  induction s as [|a s (ws & Hs & Hws)]; [by exists ""|].
  simpl. destruct (JsLib.is_white_space a) eqn:Ha.
  - exists (String a ws). split; [by rewrite app_cons, <- Hs|].
    simpl. by rewrite Ha.
  - by exists "".
Qed.

Lemma list_of_append (s t : string) :
  String.list_ascii_of_string (s +:+ t) = String.list_ascii_of_string s ++ String.list_ascii_of_string t.
Proof. induction s as [|a s IH]; [done|]. rewrite app_cons. simpl. by rewrite IH. Qed.

Lemma white_rev (s : string) :
  forallb JsLib.is_white_space (String.list_ascii_of_string s) = true →
  forallb JsLib.is_white_space (String.list_ascii_of_string (String.rev s)) = true.
Proof.
  induction s as [|a s IH]; [done|].
  simpl. intros [Ha Hs]%andb_prop.
  rewrite rev_cons, list_of_append, forallb_app, (IH Hs). simpl. by rewrite Ha.
Qed.

(** [trim] leaves the string [trim_start] leaves, without white space at
    its end. *)
Lemma trim_split (s : string) :
  ∃ ws, JsLib.trim_start s = JsLib.trim s +:+ ws ∧
        forallb JsLib.is_white_space (String.list_ascii_of_string ws) = true.
Proof.
  unfold JsLib.trim.
  destruct (trim_start_split (String.rev (JsLib.trim_start s))) as (ws & Hs & Hws).
  exists (String.rev ws). split; [|by apply white_rev].
  rewrite <- rev_append, <- Hs. by rewrite rev_rev.
Qed.

Lemma prefix_append (p u v : string) :
  String.prefix p u = true → String.prefix p (u +:+ v) = true.
Proof.
  revert u. induction p as [|a p IH]; intros u; [by destruct (u +:+ v)|].
  destruct u as [|b u]; [done|]. rewrite app_cons. simpl.
  destruct (Ascii.ascii_dec a b); [apply IH|done].
Qed.

(** A string without white space that begins [u +:+ ws], for white space
    [ws], begins [u]. *)
Lemma prefix_before_white (p u ws : string) :
  forallb (fun c => negb (JsLib.is_white_space c)) (String.list_ascii_of_string p) = true →
  forallb JsLib.is_white_space (String.list_ascii_of_string ws) = true →
  String.prefix p (u +:+ ws) = true → String.prefix p u = true.
Proof.
  intros Hp Hws. revert p Hp. induction u as [|b u IH]; intros p Hp.
  - destruct p as [|a p]; [done|]. destruct ws as [|c ws]; [done|].
    simpl in *. destruct (Ascii.ascii_dec a c) as [->|]; [|done].
    apply andb_prop in Hp as [Hc _]. apply andb_prop in Hws as [Hc' _].
    by rewrite Hc' in Hc.
  - destruct p as [|a p]; [done|]. rewrite app_cons. simpl in *.
    apply andb_prop in Hp as [_ Hp].
    destruct (Ascii.ascii_dec a b); [by apply IH|done].
Qed.

Lemma prefix_trim (p s : string) :
  forallb (fun c => negb (JsLib.is_white_space c)) (String.list_ascii_of_string p) = true →
  String.prefix p (JsLib.trim s) = String.prefix p (JsLib.trim_start s).
Proof.
  intros Hp. destruct (trim_split s) as (ws & -> & Hws).
  destruct (String.prefix p (JsLib.trim s)) eqn:H1.
  - symmetry. by apply prefix_append.
  - destruct (String.prefix p (JsLib.trim s +:+ ws)) eqn:H2; [|done].
    by rewrite (prefix_before_white _ _ _ Hp Hws H2) in H1.
Qed.

(** [s.indexOf(t) === 0] says that [s] begins with [t]. *)
Lemma indexOf_0 (s t : string) :
  bool_decide (JsLib.indexOf s t = 0%Z) = String.prefix t s.
Proof.
  unfold JsLib.indexOf. destruct s as [|b s].
  - by destruct t.
  - cbn [String.index].
    destruct (String.prefix t (String b s)); [done|].
    by destruct (String.index 0 t s).
Qed.

Lemma prefix_cons_inv (a : Ascii.ascii) (p s : string) :
  String.prefix (String a p) s = true →
  ∃ s', s = String a s' ∧ String.prefix p s' = true.
Proof.
  destruct s as [|b s]; [done|]. simpl.
  destruct (Ascii.ascii_dec a b) as [->|]; [|done]. by exists s.
Qed.

(** X19: a value is a WKT point, line or polygon exactly when it is a
    string that, after the white space at its front, begins with [POINT],
    [LINESTRING] or [POLYGON]; what follows the word is not looked at. *)
Theorem wkt_type_is_leading_word (s : string) :
  isPoint (Js.String s) = String.prefix "POINT" (JsLib.trim_start s) ∧
  isLine (Js.String s) = String.prefix "LINESTRING" (JsLib.trim_start s) ∧
  isPolygon (Js.String s) = String.prefix "POLYGON" (JsLib.trim_start s) ∧
  (∀ rest, isPoint (Js.String ("POINT" +:+ rest)) = true ∧
           isLine (Js.String ("LINESTRING" +:+ rest)) = true ∧
           isPolygon (Js.String ("POLYGON" +:+ rest)) = true).
Proof.
  unfold isPoint, isLine, isPolygon, _isType.
  rewrite !indexOf_0, !prefix_trim by done.
  split; [done|]. split; [done|]. split; [done|].
  intros rest. rewrite !indexOf_0, !prefix_trim by done.
  change (JsLib.trim_start ("POINT" +:+ rest)) with ("POINT" +:+ rest).
  change (JsLib.trim_start ("LINESTRING" +:+ rest)) with ("LINESTRING" +:+ rest).
  change (JsLib.trim_start ("POLYGON" +:+ rest)) with ("POLYGON" +:+ rest).
  repeat split; by apply prefix_append.
Qed.

(** X20: of [isPoint], [isLine] and [isPolygon] at most one holds of a
    value, [isWKT] holds exactly when one of them does, and none holds of a
    value that is not a string. *)
Theorem wkt_types_exclude (v : Js.value) :
  (isPoint v = true → isLine v = false ∧ isPolygon v = false) ∧
  (isLine v = true → isPoint v = false ∧ isPolygon v = false) ∧
  (isPolygon v = true → isPoint v = false ∧ isLine v = false) ∧
  (isWKT v = true ↔ isPoint v = true ∨ isLine v = true ∨ isPolygon v = true) ∧
  (isWKT v = true → ∃ s, v = Js.String s).
Proof.
  assert (Hwkt : isWKT v = true ↔
                 isPoint v = true ∨ isLine v = true ∨ isPolygon v = true).
  { unfold isWKT. rewrite !orb_true_iff. tauto. }
  destruct v as [| n | s]; try by (rewrite Hwkt; repeat split; try done; intros [?|[?|?]]).
  unfold isPoint, isLine, isPolygon, _isType in *. rewrite !indexOf_0 in *.
  split; [|split; [|split; [|split; [exact Hwkt|by exists s]]]].
  - intros (s1 & Hs & H1)%prefix_cons_inv. rewrite Hs. split; [done|].
    apply prefix_cons_inv in H1 as (s2 & -> & H2).
    apply prefix_cons_inv in H2 as (s3 & -> & H3). done.
  - intros (s1 & Hs & H1)%prefix_cons_inv. rewrite Hs. done.
  - intros (s1 & Hs & H1)%prefix_cons_inv. rewrite Hs. split; [|done].
    apply prefix_cons_inv in H1 as (s2 & -> & H2).
    apply prefix_cons_inv in H2 as (s3 & -> & H3). done.
Qed.

(** *** [swapCoords] *)

(** The function [swapCoords] hands to [forEach]. *)
Lemma swapCoords_unfold (coords : list coord) :
  swapCoords coords
  = foldl (fun acc i => match acc with
                        | Return cs => swapCoord cs i
                        | Throw e cs => Throw e cs
                        end)
          (Return (Some <$> coords)) (seq 0 (length coords)).
Proof. reflexivity. Qed.

Lemma swapCoords_thrown (e : error) (cs : list (option coord)) (idx : list nat) :
  foldl (fun acc i => match acc with
                      | Return cs => swapCoord cs i
                      | Throw e cs => Throw e cs
                      end) (Throw e cs) idx = Throw e cs.
Proof. by induction idx. Qed.

(** The loop over objects with an [x]: the elements before the index are
    swapped already, the others are still to come. *)
Lemma swapCoords_objects_loop (todo : list coord) : ∀ (seen rest : list coord),
  Forall (fun c => ∃ x y, c = XY x y ∧ x ≠ Js.Undefined) todo →
  foldl (fun acc i => match acc with
                      | Return cs => swapCoord cs i
                      | Throw e cs => Throw e cs
                      end)
        (Return (Some <$> (seen ++ todo ++ rest))) (seq (length seen) (length todo))
  = Return (Some <$> (seen ++ ((fun c => match c with
                                         | XY x y => XY y x
                                         | Arr elems => Arr elems
                                         end) <$> todo) ++ rest)).
Proof.
  induction todo as [|c todo IH]; intros seen rest Hall; [done|].
  apply Forall_cons in Hall as [(x & y & -> & Hx) Hall].
  cbn [length seq foldl].
  assert (Hc : (Some <$> (seen ++ (XY x y :: todo) ++ rest)) !! length seen
               = Some (Some (XY x y))).
  { rewrite list_lookup_fmap, lookup_app_r, Nat.sub_diag by done. done. }
  assert (Hins : <[length seen := Some (XY y x)]>
                   (Some <$> (seen ++ (XY x y :: todo) ++ rest))
                 = Some <$> ((seen ++ [XY y x]) ++ todo ++ rest)).
  { rewrite <- list_fmap_insert. f_equal.
    rewrite insert_app_r_alt, Nat.sub_diag by done. by rewrite <- app_assoc. }
  assert (Hstep : swapCoord (Some <$> (seen ++ (XY x y :: todo) ++ rest)) (length seen)
                  = Return (Some <$> ((seen ++ [XY y x]) ++ todo ++ rest))).
  { unfold swapCoord. rewrite Hc, Hins. by destruct x. }
  rewrite Hstep.
  replace (S (length seen)) with (length (seen ++ [XY y x]))
    by (rewrite length_app; simpl; lia).
  rewrite (IH _ _ Hall), <- app_assoc. done.
Qed.

(** X21: on an array of objects that all have an [x], [swapCoords]
    exchanges [x] and [y] of every object and returns the array, whether or
    not the [y] are defined; applied again to the result, when every [y] was
    defined too, it gives the coordinates back. *)
Theorem swapCoords_objects (coords : list coord) :
  Forall (fun c => ∃ x y, c = XY x y ∧ x ≠ Js.Undefined) coords →
  let swapped := (fun c => match c with
                           | XY x y => XY y x
                           | Arr elems => Arr elems
                           end) <$> coords in
  swapCoords coords = Return (Some <$> swapped) ∧
  (Forall (fun c => ∃ x y, c = XY x y ∧ y ≠ Js.Undefined) coords →
   swapCoords swapped = Return (Some <$> coords)).
Proof.
  intros Hall swapped. split.
  - rewrite swapCoords_unfold.
    pose proof (swapCoords_objects_loop coords [] []) as H.
    rewrite !app_nil_r in H. by apply H.
  - intros Hy. rewrite swapCoords_unfold.
    pose proof (swapCoords_objects_loop swapped [] []) as H.
    rewrite !app_nil_r in H. simpl in H. rewrite H.
    + f_equal. f_equal. unfold swapped. rewrite <- list_fmap_compose.
      rewrite <- (list_fmap_id coords) at 2.
      apply Forall_fmap_ext_1. eapply Forall_impl; [exact Hall|].
      by intros c (x & y & -> & _).
    + unfold swapped. apply Forall_fmap. eapply Forall_impl; [exact Hy|].
      intros c (x & y & -> & Hy'). simpl. eauto.
Qed.

(** The theorem on two objects, one of them without a [y]. *)
Lemma swapCoords_objects_witness :
  swapCoords [XY (Js.int 1) Js.Undefined; XY (Js.int 3) (Js.int 4)]
  = Return [Some (XY Js.Undefined (Js.int 1)); Some (XY (Js.int 4) (Js.int 3))].
Proof.
  refine (proj1 (swapCoords_objects
                   [XY (Js.int 1) Js.Undefined; XY (Js.int 3) (Js.int 4)] _)).
  repeat constructor; eexists _, _; (split; [reflexivity|discriminate]).
Defined.

(** X22: an element that has no [x] and is no array of two elements, such
    as an object whose [x] is [undefined], makes [swapCoords] throw the
    DeveloperError when the elements before it are objects with an [x];
    these have been swapped by then and stay swapped, and the element and
    those behind it are as they were. *)
Theorem swapCoords_invalid (seen rest : list coord) (c : coord) :
  Forall (fun c => ∃ x y, c = XY x y ∧ x ≠ Js.Undefined) seen →
  (∃ y, c = XY Js.Undefined y) ∨ (∃ elems, c = Arr elems ∧ length elems ≠ 2) →
  swapCoords (seen ++ c :: rest)
  = Throw (DevError "Invalid arguments")
      (Some <$> ((fun c => match c with
                           | XY x y => XY y x
                           | Arr elems => Arr elems
                           end) <$> seen) ++ c :: rest).
Proof.
  intros Hseen Hc.
  rewrite swapCoords_unfold, length_app.
  cbn [length]. rewrite seq_app. change (0 + length seen) with (length seen).
  cbn [seq]. rewrite foldl_app. cbn [foldl].
  pose proof (swapCoords_objects_loop seen [] (c :: rest) Hseen) as Hloop.
  simpl in Hloop. rewrite Hloop.
  set (cs := Some <$> ((fun c => match c with
                                 | XY x y => XY y x
                                 | Arr elems => Arr elems
                                 end) <$> seen) ++ c :: rest).
  assert (Hstep : swapCoord cs (length seen)
                  = Throw (DevError "Invalid arguments") cs).
  { unfold swapCoord, cs.
    rewrite list_lookup_fmap, lookup_app_r by by rewrite length_fmap.
    rewrite length_fmap, Nat.sub_diag. simpl.
    destruct Hc as [(y & ->)|(elems & -> & Hlen)]; [done|].
    by rewrite decide_False. }
  rewrite Hstep. apply swapCoords_thrown.
Qed.

(** The theorem on an array whose second element is an array of one
    element: the first object is left swapped, the third untouched. *)
Lemma swapCoords_invalid_witness :
  swapCoords [XY (Js.int 1) (Js.int 2); Arr [Js.int 3]; XY (Js.int 5) (Js.int 6)]
  = Throw (DevError "Invalid arguments")
      [Some (XY (Js.int 2) (Js.int 1)); Some (Arr [Js.int 3]);
       Some (XY (Js.int 5) (Js.int 6))].
Proof.
  refine (swapCoords_invalid [XY (Js.int 1) (Js.int 2)] [XY (Js.int 5) (Js.int 6)]
            (Arr [Js.int 3]) _ _).
  - repeat constructor. eexists _, _. split; [reflexivity|discriminate].
  - right. eexists. split; [reflexivity|]. simpl. lia.
Defined.

(** X23: on an array of arrays of two elements each, [swapCoords] changes
    none of the inner arrays: every visit exchanges the first two entries of
    the outer array, so that these end up exchanged when the array has an
    odd number of entries and in place when it has an even number. *)
Theorem swapCoords_arrays (a b : coord) (rest : list coord) :
  Forall (fun c => ∃ u v, c = Arr [u; v]) (a :: b :: rest) →
  swapCoords (a :: b :: rest)
  = Return (Some <$> (if Nat.even (length rest) then a :: b :: rest
                      else b :: a :: rest)).
Proof.
  intros Hall.
  assert (Hstep : ∀ a b i, Forall (fun c => ∃ u v, c = Arr [u; v]) (a :: b :: rest) →
                   i < length (a :: b :: rest) →
                   swapCoord (Some <$> (a :: b :: rest)) i
                   = Return (Some <$> (b :: a :: rest))).
  { intros a' b' i Hall' Hi. unfold swapCoord.
    destruct (lookup_lt_is_Some_2 (a' :: b' :: rest) i Hi) as [c Hc].
    rewrite list_lookup_fmap, Hc. simpl.
    apply (proj1 (Forall_lookup _ _) Hall') in Hc as (u & v & ->).
    done. }
  assert (Hloop : ∀ n k a b, Forall (fun c => ∃ u v, c = Arr [u; v]) (a :: b :: rest) →
                   k + n ≤ length (a :: b :: rest) →
                   foldl (fun acc i => match acc with
                                       | Return cs => swapCoord cs i
                                       | Throw e cs => Throw e cs
                                       end)
                         (Return (Some <$> (a :: b :: rest))) (seq k n)
                   = Return (Some <$> (if Nat.even n then a :: b :: rest
                                       else b :: a :: rest))).
  { induction n as [|n IH]; intros k a' b' Hall' Hk; [done|].
    cbn [seq foldl]. rewrite (Hstep a' b' k Hall') by lia.
    rewrite IH.
    - rewrite Nat.even_succ, <- Nat.negb_even. by destruct (Nat.even n).
    - apply Forall_cons in Hall' as [Ha Hall'].
      apply Forall_cons in Hall' as [Hb Hall'].
      by repeat apply Forall_cons_2.
    - simpl in *. lia. }
  rewrite swapCoords_unfold.
  rewrite (Hloop (length (a :: b :: rest)) 0 a b Hall) by (simpl; lia).
  done.
Qed.

Lemma swapCoords_arrays_witness :
  swapCoords [Arr [Js.int 1; Js.int 2]; Arr [Js.int 3; Js.int 4]; Arr [Js.int 5; Js.int 6]]
  = Return [Some (Arr [Js.int 3; Js.int 4]); Some (Arr [Js.int 1; Js.int 2]);
            Some (Arr [Js.int 5; Js.int 6])].
Proof.
  refine (swapCoords_arrays (Arr [Js.int 1; Js.int 2]) (Arr [Js.int 3; Js.int 4])
            [Arr [Js.int 5; Js.int 6]] _).
  repeat constructor; by eexists _, _.
Defined.

End WKTSpec.

(** ** atlas/model/LineNetwork: the node ids of a line *)

Module LineNetworkSpec.

Import LineNetwork.

(** [splice(k, 0, x)] inside the array. *)
Lemma splice_insert {A : Type} (k : Z) (x : A) (l : list A) :
  (0 ≤ k ≤ Z.of_nat (length l))%Z →
  JsLib.splice k 0 [x] l = take (Z.to_nat k) l ++ x :: drop (Z.to_nat k) l.
Proof.
  intros Hk. unfold JsLib.splice.
  destruct (Z.ltb_spec k 0); [lia|].
  rewrite (Z.min_l k) by lia. rewrite (Z.max_l 0 0) by lia.
  rewrite (Z.min_l 0) by lia. by rewrite Z.add_0_r.
Qed.

(** [splice(p, 1)] takes away the element at [p], or at [p] from the end. *)
Lemma splice_remove {A : Type} (p : Z) (k : nat) (x : A) (l : list A) :
  k ≤ length l →
  (p = Z.of_nat k ∨ p = Z.of_nat k - Z.of_nat (length l) - 1)%Z →
  JsLib.splice p 1 [] (take k l ++ x :: drop k l) = l.
Proof.
  intros Hk Hp. unfold JsLib.splice.
  assert (Hlen : length (take k l ++ x :: drop k l) = S (length l)).
  { rewrite length_app, length_take. simpl. rewrite length_drop. lia. }
  rewrite Hlen.
  assert (Hstart : (if (p <? 0)%Z then Z.max (Z.of_nat (S (length l)) + p) 0
                    else Z.min p (Z.of_nat (S (length l)))) = Z.of_nat k).
  { destruct (Z.ltb_spec p 0); lia. }
  rewrite Hstart. rewrite (Z.max_l 1 0) by lia.
  rewrite (Z.min_l 1) by lia.
  replace (Z.to_nat (Z.of_nat k + 1)) with (S k) by lia.
  rewrite Nat2Z.id. simpl.
  rewrite take_app_length' by (rewrite length_take; lia).
  rewrite (cons_middle x), app_assoc.
  rewrite drop_app_length' by (rewrite length_app, length_take; simpl; lia).
  apply take_drop.
Qed.

(** X24: when the line and the node exist and the position lies between
    [-1 - n] and [n], for [n] the number of node ids of the line,
    [insertNodeIntoLine] puts the node id at index [position], or at index
    [n + 1 + position] for a negative position, and keeps the other ids in
    their order; the points of the line are then the old points with the
    node's point at that index. *)
Theorem insertNodeIntoLine_position (lineData : LineData) (_nodeData : list GeoPoint.t)
    (nodeId : nat) (position : option Z) (node : GeoPoint.t) :
  _nodeData !! nodeId = Some node →
  let n := length (nodeIds lineData) in
  let p := default 0%Z position in
  (-1 - Z.of_nat n ≤ p ≤ Z.of_nat n)%Z →
  let k := Z.to_nat (if (p <? 0)%Z then Z.of_nat n + 1 + p else p)%Z in
  ∃ lineData',
    insertNodeIntoLine (Some lineData) _nodeData nodeId position = Spliced lineData' ∧
    nodeIds lineData' = take k (nodeIds lineData) ++ nodeId :: drop k (nodeIds lineData) ∧
    length (nodeIds lineData') = S n ∧
    nodeIds lineData' !! k = Some nodeId ∧
    _getLineGeoPoints lineData' _nodeData
    = take k (_getLineGeoPoints lineData _nodeData)
      ++ Some node :: drop k (_getLineGeoPoints lineData _nodeData).
Proof.
  intros Hnode n p Hp k.
  assert (Hk : k ≤ n) by (unfold k; destruct (Z.ltb_spec p 0); lia).
  exists {| nodeIds := take k (nodeIds lineData) ++ nodeId :: drop k (nodeIds lineData) |}.
  split; [|split; [done|split; [|split]]].
  - unfold insertNodeIntoLine. rewrite Hnode. fold p. fold n.
    destruct (Z.ltb_spec (Z.of_nat n) p); [lia|].
    destruct (Z.ltb_spec p (-1 - Z.of_nat n)); [lia|].
    simpl. f_equal. f_equal. apply splice_insert.
    fold n. destruct (Z.ltb_spec p 0); lia.
  - simpl. rewrite length_app, length_take. simpl. rewrite length_drop. fold n. lia.
  - simpl. rewrite lookup_app_r by (rewrite length_take; fold n; lia).
    rewrite length_take. fold n. by replace (k - k `min` n) with 0 by lia.
  - unfold _getLineGeoPoints. simpl.
    by rewrite fmap_app, fmap_cons, fmap_take, fmap_drop, Hnode.
Qed.

Lemma insertNodeIntoLine_position_witness :
  ∃ lineData',
    insertNodeIntoLine (Some {| nodeIds := [0; 1] |})
      [GeoPoint._init None None None; GeoPoint._init None None None;
       GeoPoint._init None None None] 2 (Some (-2)%Z)
    = Spliced lineData' ∧
    nodeIds lineData' = [0; 2; 1].
Proof.
  destruct (insertNodeIntoLine_position {| nodeIds := [0; 1] |}
              [GeoPoint._init None None None; GeoPoint._init None None None;
               GeoPoint._init None None None] 2 (Some (-2)%Z)
              (GeoPoint._init None None None))
    as (lineData' & H1 & H2 & _).
  - reflexivity.
  - simpl. lia.
  - exists lineData'. split; [exact H1|exact H2].
Defined.

(** X25: with the position left out [insertNodeIntoLine] puts the node id
    in front of the line's ids, and with position [-1] behind them. *)
Theorem insertNodeIntoLine_ends (lineData : LineData) (_nodeData : list GeoPoint.t)
    (nodeId : nat) :
  is_Some (_nodeData !! nodeId) →
  insertNodeIntoLine (Some lineData) _nodeData nodeId None
  = Spliced {| nodeIds := nodeId :: nodeIds lineData |} ∧
  insertNodeIntoLine (Some lineData) _nodeData nodeId (Some (-1)%Z)
  = Spliced {| nodeIds := nodeIds lineData ++ [nodeId] |}.
Proof.
  intros [node Hnode]. unfold insertNodeIntoLine. rewrite Hnode. simpl.
  split.
  - destruct (Z.ltb_spec (Z.of_nat (length (nodeIds lineData))) 0); [lia|].
    destruct (Z.ltb_spec 0 (-1 - Z.of_nat (length (nodeIds lineData)))); [lia|].
    simpl. f_equal. f_equal. rewrite splice_insert by lia. done.
  - destruct (Z.ltb_spec (Z.of_nat (length (nodeIds lineData))) (-1)); [lia|].
    destruct (Z.ltb_spec (-1) (-1 - Z.of_nat (length (nodeIds lineData)))); [lia|].
    simpl. f_equal. f_equal. rewrite splice_insert by lia.
    replace (Z.to_nat (Z.of_nat (length (nodeIds lineData)) + 1 + -1))
      with (length (nodeIds lineData)) by lia.
    by rewrite take_ge, drop_ge by lia.
Qed.

Lemma insertNodeIntoLine_ends_witness :
  insertNodeIntoLine (Some {| nodeIds := [0; 0] |}) [GeoPoint._init None None None] 0
    (Some (-1)%Z)
  = Spliced {| nodeIds := [0; 0; 0] |}.
Proof.
  refine (proj2 (insertNodeIntoLine_ends {| nodeIds := [0; 0] |}
                   [GeoPoint._init None None None] 0 _)).
  by eexists.
Defined.

(** X26: [insertNodeIntoLine] throws a TypeError exactly when the line does
    not exist, so its DeveloperError for a missing line is never thrown; the
    only DeveloperError it throws is the one for a node that does not exist;
    and it returns without a change exactly when line and node exist and the
    position is greater than [n] or less than [-1 - n]. *)
Theorem insertNodeIntoLine_outcomes (lineData : option LineData)
    (_nodeData : list GeoPoint.t) (nodeId : nat) (position : option Z) :
  let r := insertNodeIntoLine lineData _nodeData nodeId position in
  (r = Thrown TypeError ↔ lineData = None) ∧
  r ≠ Thrown (DeveloperError "Must specify line to insert node into") ∧
  (∀ message, r = Thrown (DeveloperError message) ↔
     message = "Given nodeId does not exist." ∧ is_Some lineData ∧
     _nodeData !! nodeId = None) ∧
  (r = Refused ↔
     ∃ l, lineData = Some l ∧ is_Some (_nodeData !! nodeId) ∧
          let n := Z.of_nat (length (nodeIds l)) in
          let p := default 0%Z position in
          (n < p ∨ p < -1 - n)%Z).
Proof.
  unfold insertNodeIntoLine.
  destruct lineData as [l|]; simpl.
  - destruct (_nodeData !! nodeId) as [node|] eqn:Hnode.
    + set (n := Z.of_nat (length (nodeIds l))). set (p := default 0%Z position).
      destruct (Z.ltb_spec n p); destruct (Z.ltb_spec p (-1 - n)); simpl;
        (split; [done|]); (split; [done|]);
        (split; [intros message; split; [done|by intros (_ & _ & ?)]|]);
        split; try done; try (intros _; exists l; split; [done|split; [by eexists|lia]]);
        intros (l' & [= <-] & _ & Hor); fold n p in Hor; lia.
    + split; [done|]. split; [done|]. split.
      * intros message. split; [by intros [= <-]|by intros (-> & _ & _)].
      * split; [done|]. by intros (l' & _ & [? ?] & _).
  - split; [done|]. split; [done|]. split.
    + intros message. split; [done|]. by intros (_ & [? ?] & _).
    + split; [done|]. by intros (l' & ? & _).
Qed.

(** X27: a node id inserted at a position is taken away again by
    [removeNodeFromLine] at the same position, be it positive, negative or
    left out: the line has its old node ids. *)
Theorem insert_then_remove (lineData : LineData) (_nodeData : list GeoPoint.t)
    (nodeId : nat) (position : option Z) :
  is_Some (_nodeData !! nodeId) →
  (-1 - Z.of_nat (length (nodeIds lineData)) ≤ default 0%Z position
   ≤ Z.of_nat (length (nodeIds lineData)))%Z →
  ∃ lineData',
    insertNodeIntoLine (Some lineData) _nodeData nodeId position = Spliced lineData' ∧
    removeNodeFromLine (Some lineData') position = Some lineData.
Proof.
  intros [node Hnode] Hp. unfold insertNodeIntoLine. rewrite Hnode.
  set (n := Z.of_nat (length (nodeIds lineData))) in *.
  set (p := default 0%Z position) in *.
  destruct (Z.ltb_spec n p); [lia|]. destruct (Z.ltb_spec p (-1 - n)); [lia|].
  simpl. eexists. split; [reflexivity|].
  unfold removeNodeFromLine. cbn [nodeIds]. fold p.
  rewrite splice_insert by (fold n; destruct (Z.ltb_spec p 0); lia).
  rewrite splice_remove.
  - by destruct lineData.
  - destruct (Z.ltb_spec p 0); lia.
  - fold n. destruct (Z.ltb_spec p 0); lia.
Qed.

Lemma insert_then_remove_witness :
  ∃ lineData',
    insertNodeIntoLine (Some {| nodeIds := [0; 1] |})
      [GeoPoint._init None None None; GeoPoint._init None None None] 1 (Some (-3)%Z)
    = Spliced lineData' ∧
    removeNodeFromLine (Some lineData') (Some (-3)%Z) = Some {| nodeIds := [0; 1] |}.
Proof.
  apply (insert_then_remove {| nodeIds := [0; 1] |}
           [GeoPoint._init None None None; GeoPoint._init None None None] 1
           (Some (-3)%Z)).
  - by eexists.
  - simpl. lia.
Defined.

(** X28: [addNode] returns an id under which the node is found from then
    on, the ids handed out before keep their nodes, the points of a line
    that does not use the new id stay, and the new id can be inserted into
    a line. *)
Theorem addNode_id (node : GeoPoint.t) (_nodeData : list GeoPoint.t) :
  let nodes := fst (addNode node _nodeData) in
  let id := snd (addNode node _nodeData) in
  nodes !! id = Some node ∧
  _nodeData !! id = None ∧
  (∀ i, i ≠ id → nodes !! i = _nodeData !! i) ∧
  (∀ lineData, id ∉ nodeIds lineData →
     _getLineGeoPoints lineData nodes = _getLineGeoPoints lineData _nodeData) ∧
  (∀ lineData, insertNodeIntoLine (Some lineData) nodes id None
               = Spliced {| nodeIds := id :: nodeIds lineData |}).
Proof.
  unfold addNode. cbn [fst snd]. rewrite length_app. cbn [length].
  replace (length _nodeData + 1 - 1) with (length _nodeData) by lia.
  assert (Hnew : (_nodeData ++ [node]) !! length _nodeData = Some node).
  { by rewrite lookup_app_r, Nat.sub_diag by done. }
  assert (Hold : ∀ i, i ≠ length _nodeData →
                      (_nodeData ++ [node]) !! i = _nodeData !! i).
  { intros i Hi. destruct (decide (i < length _nodeData)).
    - by rewrite lookup_app_l.
    - rewrite !lookup_ge_None_2; [done|lia|rewrite length_app; simpl; lia]. }
  split; [exact Hnew|]. split; [by apply lookup_ge_None_2|].
  split; [exact Hold|]. split.
  - intros lineData Hnot. unfold _getLineGeoPoints.
    apply Forall_fmap_ext_1, Forall_forall. intros i Hi. apply Hold.
    by intros ->.
  - intros lineData. unfold insertNodeIntoLine. rewrite Hnew. simpl.
    destruct (Z.ltb_spec (Z.of_nat (length (nodeIds lineData))) 0); [lia|].
    destruct (Z.ltb_spec 0 (-1 - Z.of_nat (length (nodeIds lineData)))); [lia|].
    simpl. f_equal. f_equal. by rewrite splice_insert by lia.
Qed.

End LineNetworkSpec.
